(** * Credential-refresh coordination of the OpenMemory UI API client

    A shallow embedding of

    - [openmemory/ui/store/authSlice.ts]: the Redux auth slice (state,
      reducers, the [logoutUser] thunk), and
    - the axios client module (request interceptor, [isRefreshing],
      [failedQueue], [processQueue], response interceptor),

    followed by the properties of the renewal protocol.

    JavaScript runs the handlers on one thread: a handler runs up to its
    next [await] without interruption, and the promise reactions it
    scheduled run right after it, in the order they were scheduled.  The
    embedding makes this explicit: the module state is a record that
    every handler transforms, a handler's pending reactions are a job
    list drained after it, and everything that leaves the module (HTTP
    calls, settled promises) is appended to a log. *)

From stdpp Require Import gmap strings list fin_maps.

(** ** JavaScript values used by both modules *)

(** Truthiness of a [string | null] value: [null] and the empty string
    are falsy. *)
Definition truthy (v : option string) : bool :=
  match v with
  | Some s => negb (String.eqb s "")
  | None => false
  end.

(** [v || dflt] where [v : string | undefined]. *)
Definition or_else (v : option string) (dflt : string) : string :=
  match v with
  | Some s => if String.eqb s "" then dflt else s
  | None => dflt
  end.

(** Truthiness of an optional boolean property ([_retry?: boolean]). *)
Definition truthy_flag (v : option bool) : bool :=
  match v with
  | Some b => b
  | None => false
  end.

(** A template literal [`Bearer ${token}`]; [null] prints as ["null"]. *)
Definition bearer (token : option string) : string :=
  "Bearer " +:+ match token with Some t => t | None => "null" end.

(** ** store/authSlice.ts *)

Module AuthSlice.

Record User := mkUser {
  id : string;
  username : string;
  email : string;
  name : option string
}.

Inductive Status := idle | loading | succeeded | failed.

Record AuthState := mkAuthState {
  isAuthenticated : bool;
  user : option User;
  accessToken : option string;
  status : Status;
  error : option string
}.

Definition initialState : AuthState :=
  {| isAuthenticated := false;
     user := None;
     accessToken := None;
     status := idle;
     error := None |}.

(** The actions of the slice: its two plain reducers and the three
    lifecycle actions of each thunk. *)
Inductive Action :=
| clearAuthError
| setAccessToken (payload : option string)
| fetchUser_pending
| fetchUser_fulfilled (payload : User)
| fetchUser_rejected (payload : string)
| loginUser_pending
| loginUser_fulfilled (payload_accessToken : string)
| loginUser_rejected (payload : string)
| registerUser_pending
| registerUser_fulfilled
| registerUser_rejected (payload : string)
| logoutUser_pending
| logoutUser_fulfilled
| logoutUser_rejected (payload : string).

Definition reducer (state : AuthState) (action : Action) : AuthState :=
  match action with
  | clearAuthError =>
      mkAuthState (isAuthenticated state) (user state) (accessToken state)
                  (status state) None
  | setAccessToken payload =>
      mkAuthState (isAuthenticated state) (user state) payload
                  (status state) (error state)
  | fetchUser_pending =>
      mkAuthState (isAuthenticated state) (user state) (accessToken state)
                  loading None
  | fetchUser_fulfilled payload =>
      mkAuthState true (Some payload) (accessToken state) succeeded None
  | fetchUser_rejected payload =>
      mkAuthState false None (accessToken state) failed
                  (if String.eqb payload "Not authenticated"
                   then error state else Some payload)
  | loginUser_pending =>
      mkAuthState (isAuthenticated state) (user state) None loading None
  | loginUser_fulfilled tok =>
      mkAuthState (isAuthenticated state) (user state) (Some tok)
                  succeeded (error state)
  | loginUser_rejected payload =>
      mkAuthState false None None failed (Some payload)
  | registerUser_pending =>
      mkAuthState (isAuthenticated state) (user state) (accessToken state)
                  loading None
  | registerUser_fulfilled =>
      mkAuthState (isAuthenticated state) (user state) (accessToken state)
                  succeeded (error state)
  | registerUser_rejected payload =>
      mkAuthState (isAuthenticated state) (user state) (accessToken state)
                  failed (Some payload)
  | logoutUser_pending =>
      mkAuthState (isAuthenticated state) (user state) (accessToken state)
                  loading (error state)
  | logoutUser_fulfilled =>
      mkAuthState false None None idle None
  | logoutUser_rejected payload =>
      mkAuthState false None None failed (Some payload)
  end.

Definition selectAccessToken (state : AuthState) : option string :=
  accessToken state.

(** What [fetch('/api/auth/logout', ...)] can do: throw (the message of
    the exception), or answer with [response.ok] and a body whose
    [json()] either throws or yields an object with an optional
    [detail]. *)
Inductive JsonOutcome :=
| JsonThrows (message : string)
| JsonValue (detail : option string).

Inductive FetchOutcome :=
| FetchThrows (message : string)
| FetchResponse (ok : bool) (body : JsonOutcome).

(** The payload creator of [logoutUser]: the action that the thunk
    dispatches when its request settles. *)
Definition logoutUser (o : FetchOutcome) : Action :=
  match o with
  | FetchResponse true _ => logoutUser_fulfilled
  | FetchResponse false (JsonValue detail) =>
      logoutUser_rejected (or_else detail "Logout failed")
  | FetchResponse false (JsonThrows message) =>
      logoutUser_rejected (or_else (Some message) "Network error")
  | FetchThrows message =>
      logoutUser_rejected (or_else (Some message) "Network error")
  end.

(** The local auth state after an invalidation: no credential, no user,
    not authenticated. *)
Definition cleared (state : AuthState) : Prop :=
  accessToken state = None ∧ user state = None ∧ isAuthenticated state = false.

End AuthSlice.

(** ** The axios client module *)

Module ApiClient.

(** *** Requests, responses and errors *)

(** A request descriptor ([InternalAxiosRequestConfig & { _retry?: boolean }]).
    Its [headers] field is not optional in that type, so the guards
    [config.headers] and [originalRequest.headers] of the source, which
    test an object, always pass; the headers object is a finite map from
    header names to values. *)
Record RequestConfig := mkConfig {
  url : string;
  headers : gmap string string;
  _retry : option bool
}.

Record AxiosResponse := mkResponse {
  status : nat;
  data : string
}.

(** An [AxiosError]: the descriptor of the request that failed and, when
    the server answered, its response; a network failure has none. *)
Record AxiosError := mkError {
  config : RequestConfig;
  response : option AxiosResponse
}.

(** [error.response?.status === 401] *)
Definition is401 (error : AxiosError) : bool :=
  match response error with
  | Some r => Nat.eqb (status r) 401
  | None => false
  end.

(** [config.headers.Authorization = v] *)
Definition setAuthorization (v : string) (config : RequestConfig) : RequestConfig :=
  mkConfig (url config) (<["Authorization" := v]> (headers config)) (_retry config).

(** [originalRequest._retry = true] *)
Definition markRetry (config : RequestConfig) : RequestConfig :=
  mkConfig (url config) (headers config) (Some true).

(** *** Request interceptor *)

Definition requestInterceptor (state : AuthSlice.AuthState) (config : RequestConfig)
  : RequestConfig :=
  let token := AuthSlice.selectAccessToken state in
  if truthy token then setAuthorization (bearer token) config else config.

(** *** Module state *)

(** Every call [apiClient(config)] made by the application returns a
    promise; the calls are numbered, and the number names that promise
    through the retries of the request. *)

(** An entry [{ resolve, reject }] of [failedQueue].  The two functions
    settle the promise created in the interceptor, whose reactions close
    over [originalRequest] and lead to the promise of [caller]. *)
Record Waiter := mkWaiter {
  caller : nat;
  originalRequest : RequestConfig
}.

Inductive Settlement :=
| Resolved (token : option string)
| Rejected (err : AxiosError).

(** What the module does to the outside, in the order it happens. *)
Inductive Effect :=
| RefreshPost                                  (* axios.post('/api/auth/refresh', ...) *)
| LogoutPost                                   (* fetch('/api/auth/logout') of the logoutUser thunk *)
| Sent (c : nat) (config : RequestConfig)      (* a request handed to the transport *)
| Enqueued (c : nat)                           (* failedQueue.push({ resolve, reject }) *)
| Settled (c : nat) (s : Settlement)           (* prom.resolve(token) / prom.reject(error) *)
| Returned (c : nat) (r : AxiosResponse)       (* the caller's promise fulfilled *)
| Thrown (c : nat) (err : AxiosError).         (* the caller's promise rejected *)

(** A promise reaction waiting for the running handler to finish:
    the [.then(token => ...)] or the [.catch(err => ...)] of a queued
    request. *)
Inductive Job :=
| ThenJob (p : Waiter) (token : option string)
| CatchJob (p : Waiter) (err : AxiosError).

Record World := mkWorld {
  store : AuthSlice.AuthState;          (* the Redux store *)
  isRefreshing : bool;                  (* let isRefreshing *)
  failedQueue : list Waiter;            (* let failedQueue *)
  awaiting : list Waiter;               (* interceptor calls suspended at [await axios.post] *)
  inflight : gmap nat RequestConfig;    (* requests on the wire, by caller *)
  jobs : list Job;                      (* scheduled promise reactions *)
  nextId : nat;                         (* number of the next call *)
  log : list Effect
}.

Definition set_store (s : AuthSlice.AuthState) (w : World) : World :=
  mkWorld s (isRefreshing w) (failedQueue w) (awaiting w) (inflight w) (jobs w) (nextId w) (log w).

Definition set_isRefreshing (b : bool) (w : World) : World :=
  mkWorld (store w) b (failedQueue w) (awaiting w) (inflight w) (jobs w) (nextId w) (log w).

Definition set_failedQueue (q : list Waiter) (w : World) : World :=
  mkWorld (store w) (isRefreshing w) q (awaiting w) (inflight w) (jobs w) (nextId w) (log w).

Definition set_awaiting (a : list Waiter) (w : World) : World :=
  mkWorld (store w) (isRefreshing w) (failedQueue w) a (inflight w) (jobs w) (nextId w) (log w).

Definition set_inflight (m : gmap nat RequestConfig) (w : World) : World :=
  mkWorld (store w) (isRefreshing w) (failedQueue w) (awaiting w) m (jobs w) (nextId w) (log w).

Definition set_jobs (j : list Job) (w : World) : World :=
  mkWorld (store w) (isRefreshing w) (failedQueue w) (awaiting w) (inflight w) j (nextId w) (log w).

Definition set_nextId (n : nat) (w : World) : World :=
  mkWorld (store w) (isRefreshing w) (failedQueue w) (awaiting w) (inflight w) (jobs w) n (log w).

Definition emit (e : Effect) (w : World) : World :=
  mkWorld (store w) (isRefreshing w) (failedQueue w) (awaiting w) (inflight w) (jobs w) (nextId w)
          (log w ++ [e]).

Definition schedule (j : Job) (w : World) : World :=
  set_jobs (jobs w ++ [j]) w.

(** [store.dispatch(action)] for a plain action. *)
Definition dispatch (a : AuthSlice.Action) (w : World) : World :=
  set_store (AuthSlice.reducer (store w) a) w.

(** [store.dispatch(logoutUser())]: the thunk dispatches its pending
    action and starts the logout request; the action for the outcome
    follows when that request settles. *)
Definition dispatch_logoutUser (w : World) : World :=
  emit LogoutPost (dispatch AuthSlice.logoutUser_pending w).

(** [apiClient(config)] for the promise of caller [c]: the request
    interceptor runs on the descriptor, then the transport takes it. *)
Definition apiClient (c : nat) (config : RequestConfig) (w : World) : World :=
  let config := requestInterceptor (store w) config in
  emit (Sent c config) (set_inflight (<[c := config]> (inflight w)) w).

(** *** processQueue *)

(** The body of the [forEach] callback. *)
Definition settle (error : option AxiosError) (token : option string)
  (w : World) (prom : Waiter) : World :=
  match error with
  | Some e => schedule (CatchJob prom e) (emit (Settled (caller prom) (Rejected e)) w)
  | None => schedule (ThenJob prom token) (emit (Settled (caller prom) (Resolved token)) w)
  end.

Definition processQueue (error : option AxiosError) (token : option string)
  (w : World) : World :=
  set_failedQueue [] (foldl (settle error token) w (failedQueue w)).

(** *** Response interceptor *)

(** The success handler returns the response as it is. *)
Definition responseInterceptor (c : nat) (r : AxiosResponse) (w : World) : World :=
  emit (Returned c r) w.

(** The error handler, up to its [await]. *)
Definition responseErrorInterceptor (c : nat) (error : AxiosError) (w : World) : World :=
  let originalRequest := config error in
  if is401 error && negb (truthy_flag (_retry originalRequest)) then
    if isRefreshing w then
      emit (Enqueued c)
           (set_failedQueue (failedQueue w ++ [mkWaiter c originalRequest]) w)
    else
      let originalRequest := markRetry originalRequest in
      let w := set_isRefreshing true w in
      emit RefreshPost (set_awaiting (awaiting w ++ [mkWaiter c originalRequest]) w)
  else
    emit (Thrown c error) w.

Inductive RefreshOutcome :=
| RefreshResolved (access_token : string)
| RefreshRejected (refreshError : AxiosError).

(** The error handler from its [await] on: the rest of the [try] block
    or the [catch] block, then the [finally] block. *)
Definition resumeInterceptor (frame : Waiter) (o : RefreshOutcome) (w : World) : World :=
  let w :=
    match o with
    | RefreshResolved newAccessToken =>
        let w := dispatch (AuthSlice.setAccessToken (Some newAccessToken)) w in
        let originalRequest :=
          setAuthorization (bearer (Some newAccessToken)) (originalRequest frame) in
        let w := processQueue None (Some newAccessToken) w in
        apiClient (caller frame) originalRequest w
    | RefreshRejected refreshError =>
        let w := dispatch_logoutUser w in
        let w := processQueue (Some refreshError) None w in
        emit (Thrown (caller frame) refreshError) w
    end in
  set_isRefreshing false w.

(** *** The event loop *)

(** The reactions of a queued request. *)
Definition runJob (w : World) (j : Job) : World :=
  match j with
  | ThenJob p token =>
      apiClient (caller p) (setAuthorization (bearer token) (originalRequest p)) w
  | CatchJob p err =>
      emit (Thrown (caller p) err) w
  end.

(** No reaction schedules another one, so one pass empties the list. *)
Definition drain (w : World) : World :=
  foldl runJob (set_jobs [] w) (jobs w).

(** The descriptor of the renewal call, which goes through the global
    axios instance and so through no interceptor of [apiClient]. *)
Definition refreshRequest : RequestConfig :=
  mkConfig "/api/auth/refresh" ∅ None.

(** What can happen to the module. *)
Inductive Event :=
| Call (config : RequestConfig)                  (* the application calls apiClient(config) *)
| ResponseOk (c : nat) (r : AxiosResponse)       (* the transport fulfils the request of c *)
| ResponseErr (c : nat) (r : option AxiosResponse) (* the transport rejects it *)
| RefreshOk (access_token : string)              (* the renewal call is fulfilled *)
| RefreshErr (r : option AxiosResponse)          (* the renewal call is rejected *)
| LogoutSettled (o : AuthSlice.FetchOutcome)     (* the logout request of the thunk settles *)
| StoreAction (a : AuthSlice.Action).            (* any other action reaches the store *)

Definition handle (e : Event) (w : World) : World :=
  match e with
  | Call config =>
      apiClient (nextId w) config (set_nextId (S (nextId w)) w)
  | ResponseOk c r =>
      match inflight w !! c with
      | Some _ => responseInterceptor c r (set_inflight (delete c (inflight w)) w)
      | None => w
      end
  | ResponseErr c r =>
      match inflight w !! c with
      | Some sent =>
          responseErrorInterceptor c (mkError sent r)
            (set_inflight (delete c (inflight w)) w)
      | None => w
      end
  | RefreshOk access_token =>
      match awaiting w with
      | frame :: rest =>
          resumeInterceptor frame (RefreshResolved access_token) (set_awaiting rest w)
      | [] => w
      end
  | RefreshErr r =>
      match awaiting w with
      | frame :: rest =>
          resumeInterceptor frame (RefreshRejected (mkError refreshRequest r))
            (set_awaiting rest w)
      | [] => w
      end
  | LogoutSettled o => dispatch (AuthSlice.logoutUser o) w
  | StoreAction a => dispatch a w
  end.

(** One turn of the loop: the handler of the event, then the reactions
    it scheduled. *)
Definition step (w : World) (e : Event) : World :=
  drain (handle e w).

Definition run (w : World) (es : list Event) : World :=
  foldl step w es.

(** The module as loaded: nothing in flight, the store in its initial state. *)
Definition init : World :=
  mkWorld AuthSlice.initialState false [] [] ∅ [] 0 [].

(** *** Reading the log and the state *)

Definition callers (ps : list Waiter) : list nat := map caller ps.

(** Number of renewal calls issued. *)
Definition renewals (l : list Effect) : nat :=
  length (omap (λ e, match e with RefreshPost => Some tt | _ => None end) l).

(** Number of times the logout thunk was started. *)
Definition logouts (l : list Effect) : nat :=
  length (omap (λ e, match e with LogoutPost => Some tt | _ => None end) l).

(** The callers whose continuation was pushed on [failedQueue], in order. *)
Definition pushes (l : list Effect) : list nat :=
  omap (λ e, match e with Enqueued c => Some c | _ => None end) l.

(** The queued continuations that were settled, in order, with the outcome. *)
Definition settlements (l : list Effect) : list (nat * Settlement) :=
  omap (λ e, match e with Settled c s => Some (c, s) | _ => None end) l.

(** The requests handed to the transport, in order. *)
Definition sends (l : list Effect) : list (nat * RequestConfig) :=
  omap (λ e, match e with Sent c config => Some (c, config) | _ => None end) l.

(** The errors delivered to callers, in order. *)
Definition rejections (l : list Effect) : list (nat * AxiosError) :=
  omap (λ e, match e with Thrown c err => Some (c, err) | _ => None end) l.

(** The events that settle the renewal call. *)
Definition settles_renewal (e : Event) : bool :=
  match e with
  | RefreshOk _ | RefreshErr _ => true
  | _ => false
  end.

(** The outcome that a settling event gives the queued continuations. *)
Definition outcome_of (e : Event) : Settlement :=
  match e with
  | RefreshOk access_token => Resolved (Some access_token)
  | RefreshErr r => Rejected (mkError refreshRequest r)
  | _ => Resolved None
  end.

(** A first authentication failure of the request of caller [c]: the
    request is on the wire and its descriptor carries no retry marker. *)
Definition unmarked (w : World) (c : nat) : Prop :=
  ∃ sent, inflight w !! c = Some sent ∧ truthy_flag (_retry sent) = false.

(** The queue entries that the callers [cs] get when their requests,
    now on the wire, are queued. *)
Definition waiters (w : World) (cs : list nat) : list Waiter :=
  omap (λ c, mkWaiter c <$> inflight w !! c) cs.

(** A burst of responses [r] to the requests of the callers [cs]. *)
Definition failures (r : AxiosResponse) (cs : list nat) : list Event :=
  map (λ c, ResponseErr c (Some r)) cs.

(** The session invalidator ran between [w] and [w']: the logout thunk
    was started, or the credential is gone. *)
Definition invalidated (w w' : World) : Prop :=
  logouts (log w) < logouts (log w') ∨
  AuthSlice.selectAccessToken (store w') = None.

(** The states the module can be in. *)
Definition reachable (w : World) : Prop := ∃ es, w = run init es.

(** What holds between two turns of the loop: no reaction is left over;
    the flag tells whether an interceptor call is suspended at the
    renewal call, and there is at most one; nothing is queued outside a
    renewal; and the continuations pushed so far are those settled so
    far followed by those still queued. *)
Record Inv (w : World) : Prop := mkInv {
  inv_jobs : jobs w = [];
  inv_single : length (awaiting w) = if isRefreshing w then 1 else 0;
  inv_idle : isRefreshing w = false → failedQueue w = [];
  inv_queue : pushes (log w) = (settlements (log w)).*1 ++ callers (failedQueue w)
}.

(** Who is where: a caller is suspended at the renewal call, or queued,
    or has its request on the wire, never two of these and never twice;
    all callers were numbered by a call; the request of the suspended
    call carries the retry marker and those of the queued ones do not. *)
Record Wf (w : World) : Prop := mkWf {
  wf_nodup : NoDup (callers (awaiting w) ++ callers (failedQueue w));
  wf_apart : ∀ c, c ∈ callers (awaiting w) ++ callers (failedQueue w) →
                  inflight w !! c = None;
  wf_bound : ∀ c, c ∈ callers (awaiting w) ++ callers (failedQueue w) ∨
                  is_Some (inflight w !! c) → c < nextId w;
  wf_marked : Forall (λ p, _retry (originalRequest p) = Some true) (awaiting w);
  wf_unmarked : Forall (λ p, truthy_flag (_retry (originalRequest p)) = false)
                       (failedQueue w)
}.

End ApiClient.

(** ** Concrete runs *)

Module Scenario.
Import ApiClient.

Definition r200 : AxiosResponse := mkResponse 200 "OK".
Definition r401 : AxiosResponse := mkResponse 401 "Unauthorized".
Definition r403 : AxiosResponse := mkResponse 403 "Forbidden".
Definition r500 : AxiosResponse := mkResponse 500 "Internal Server Error".

Definition getA : RequestConfig := mkConfig "/memories" ∅ None.
Definition getB : RequestConfig := mkConfig "/apps" ∅ None.
Definition getC : RequestConfig := mkConfig "/stats" ∅ None.

(** Logged in with credential ["T1"]. *)
Definition loggedIn : World :=
  run init [StoreAction (AuthSlice.loginUser_fulfilled "T1")].

(** Three requests dispatched with ["T1"]: callers 0, 1 and 2. *)
Definition threeSent : World :=
  run loggedIn [Call getA; Call getB; Call getC].

(** The first of them has failed authentication: a renewal is in flight. *)
Definition renewing : World :=
  run threeSent [ResponseErr 0 (Some r401)].

(** The renewal has answered ["T2"] and the first request was resent. *)
Definition retried : World :=
  run renewing [RefreshOk "T2"].

(** The second request has failed authentication during the renewal,
    which then answered ["T2"]: both requests were resent. *)
Definition bothRetried : World :=
  run renewing [ResponseErr 1 (Some r401); RefreshOk "T2"].

(** All three have failed authentication. *)
Definition threeFailed : World :=
  run threeSent (failures r401 [0; 1; 2]).

(** The renewal answered ["T2"], the three retries succeeded, and two
    more requests were dispatched later: callers 3 and 4. *)
Definition laterSent : World :=
  run threeFailed
    [RefreshOk "T2"; ResponseOk 0 r200; ResponseOk 1 r200; ResponseOk 2 r200;
     Call getA; Call getB].

End Scenario.

(** * The rest of the auth code *)

(** ** What [fetch] gives the thunks and the components *)

Module Fetch.

(** A parsed JSON body, as the code reads it: its [detail] property,
    which error bodies carry, and the value itself, taken as data of
    type [A]. *)
Record JsonValue (A : Type) := mkJson {
  detail : option string;
  data : A
}.
Arguments mkJson {A}.
Arguments detail {A}.
Arguments data {A}.

(** [await response.json()] throws or yields the parsed body. *)
Inductive JsonResult (A : Type) :=
| JsonThrows (message : string)
| JsonParsed (value : JsonValue A).
Arguments JsonThrows {A}.
Arguments JsonParsed {A}.

Record Response (A : Type) := mkResponse {
  status : nat;
  statusText : string;
  json : JsonResult A
}.
Arguments mkResponse {A}.
Arguments status {A}.
Arguments statusText {A}.
Arguments json {A}.

(** [response.ok]: the status is in the range 200 to 299. *)
Definition ok {A} (response : Response A) : bool :=
  (200 <=? status response) && (status response <=? 299).

(** [await fetch(...)] throws or yields a response. *)
Inductive Result (A : Type) :=
| Throws (message : string)
| Responds (response : Response A).
Arguments Throws {A}.
Arguments Responds {A}.

End Fetch.

(** ** store/authSlice.ts: the other thunks *)

Module AuthThunks.
Import AuthSlice.

(** The payload creator of [fetchUser]: the action dispatched when the
    request to [/api/auth/me] settles. *)
Definition fetchUser (o : Fetch.Result User) : Action :=
  match o with
  | Fetch.Throws message =>
      fetchUser_rejected (or_else (Some message) "Network error")
  | Fetch.Responds response =>
      if negb (Fetch.ok response) then
        if Nat.eqb (Fetch.status response) 401 then
          fetchUser_rejected "Not authenticated"
        else
          match Fetch.json response with
          | Fetch.JsonParsed errorData =>
              fetchUser_rejected (or_else (Fetch.detail errorData) "Failed to fetch user")
          | Fetch.JsonThrows message =>
              fetchUser_rejected (or_else (Some message) "Network error")
          end
      else
        match Fetch.json response with
        | Fetch.JsonParsed data => fetchUser_fulfilled (Fetch.data data)
        | Fetch.JsonThrows message =>
            fetchUser_rejected (or_else (Some message) "Network error")
        end
  end.

(** [dispatch(fetchUser())]: the actions that reach the store, in order. *)
Definition dispatch_fetchUser (me : Fetch.Result User) : list Action :=
  [fetchUser_pending; fetchUser me].

(** The body of the login response as [loginUser] reads it.  The source
    gives it no type: it can be JSON [null], and reading a property of
    [null] throws a TypeError, with the message of the engine; any
    other value is read for its [access_token]. *)
Inductive LoginBody :=
| LoginNull (typeError : string)
| LoginValue (access_token : string).

(** [dispatch(loginUser(credentials))].  After an ok response the thunk
    parses the body, awaits [dispatch(fetchUser())], and only then reads
    [data.access_token]: on a [null] body that throws, after the user
    fetch has run, and the [catch] block rejects the login. *)
Definition dispatch_loginUser (login : Fetch.Result LoginBody) (me : Fetch.Result User)
  : list Action :=
  loginUser_pending ::
  match login with
  | Fetch.Throws message =>
      [loginUser_rejected (or_else (Some message) "Network error")]
  | Fetch.Responds response =>
      if negb (Fetch.ok response) then
        match Fetch.json response with
        | Fetch.JsonParsed errorData =>
            match Fetch.data errorData with
            | LoginNull typeError =>
                [loginUser_rejected (or_else (Some typeError) "Network error")]
            | LoginValue _ =>
                [loginUser_rejected (or_else (Fetch.detail errorData) "Login failed")]
            end
        | Fetch.JsonThrows message =>
            [loginUser_rejected (or_else (Some message) "Network error")]
        end
      else
        match Fetch.json response with
        | Fetch.JsonParsed data =>
            dispatch_fetchUser me ++
            match Fetch.data data with
            | LoginNull typeError =>
                [loginUser_rejected (or_else (Some typeError) "Network error")]
            | LoginValue access_token =>
                [loginUser_fulfilled access_token]
            end
        | Fetch.JsonThrows message =>
            [loginUser_rejected (or_else (Some message) "Network error")]
        end
  end.

(** The payload creator of [registerUser]. *)
Definition registerUser (o : Fetch.Result User) : Action :=
  match o with
  | Fetch.Throws message =>
      registerUser_rejected (or_else (Some message) "Network error")
  | Fetch.Responds response =>
      if negb (Fetch.ok response) then
        match Fetch.json response with
        | Fetch.JsonParsed errorData =>
            registerUser_rejected (or_else (Fetch.detail errorData) "Registration failed")
        | Fetch.JsonThrows message =>
            registerUser_rejected (or_else (Some message) "Network error")
        end
      else
        match Fetch.json response with
        | Fetch.JsonParsed _ => registerUser_fulfilled
        | Fetch.JsonThrows message =>
            registerUser_rejected (or_else (Some message) "Network error")
        end
  end.

Definition dispatch_registerUser (o : Fetch.Result User) : list Action :=
  [registerUser_pending; registerUser o].

(** [dispatch(logoutUser())]. *)
Definition dispatch_logoutUser (o : FetchOutcome) : list Action :=
  [logoutUser_pending; logoutUser o].

(** The store after a list of actions. *)
Definition reduce (state : AuthState) (actions : list Action) : AuthState :=
  foldl reducer state actions.

(** The payload of a rejected action. *)
Definition rejected_payload (action : Action) : option string :=
  match action with
  | fetchUser_rejected payload | loginUser_rejected payload
  | registerUser_rejected payload | logoutUser_rejected payload => Some payload
  | _ => None
  end.

End AuthThunks.

(** ** AuthInitializer *)

Module AuthInitializer.

(** The effect: whether it dispatches [fetchUser()]. *)
Definition effect (authStatus : AuthSlice.Status) : bool :=
  match authStatus with
  | AuthSlice.idle => true
  | _ => false
  end.

End AuthInitializer.

(** ** The auth slice without the access token *)

(** The earlier form of the slice: no [accessToken] in the state, no
    [username] in the user, no [setAccessToken] action. *)
Module AuthSliceV0.

Record User := mkUser {
  id : string;
  email : string;
  name : option string
}.

Inductive Status := idle | loading | succeeded | failed.

Record AuthState := mkAuthState {
  isAuthenticated : bool;
  user : option User;
  status : Status;
  error : option string
}.

Definition initialState : AuthState :=
  {| isAuthenticated := false;
     user := None;
     status := idle;
     error := None |}.

Inductive Action :=
| clearAuthError
| fetchUser_pending
| fetchUser_fulfilled (payload : User)
| fetchUser_rejected (payload : string)
| loginUser_pending
| loginUser_fulfilled
| loginUser_rejected (payload : string)
| registerUser_pending
| registerUser_fulfilled
| registerUser_rejected (payload : string)
| logoutUser_pending
| logoutUser_fulfilled
| logoutUser_rejected (payload : string).

Definition reducer (state : AuthState) (action : Action) : AuthState :=
  match action with
  | clearAuthError =>
      mkAuthState (isAuthenticated state) (user state) (status state) None
  | fetchUser_pending =>
      mkAuthState (isAuthenticated state) (user state) loading None
  | fetchUser_fulfilled payload =>
      mkAuthState true (Some payload) succeeded None
  | fetchUser_rejected payload =>
      mkAuthState false None failed
                  (if String.eqb payload "Not authenticated"
                   then error state else Some payload)
  | loginUser_pending =>
      mkAuthState (isAuthenticated state) (user state) loading None
  | loginUser_fulfilled =>
      mkAuthState (isAuthenticated state) (user state) succeeded (error state)
  | loginUser_rejected payload =>
      mkAuthState false None failed (Some payload)
  | registerUser_pending =>
      mkAuthState (isAuthenticated state) (user state) loading None
  | registerUser_fulfilled =>
      mkAuthState (isAuthenticated state) (user state) succeeded (error state)
  | registerUser_rejected payload =>
      mkAuthState (isAuthenticated state) (user state) failed (Some payload)
  | logoutUser_pending =>
      mkAuthState (isAuthenticated state) (user state) loading (error state)
  | logoutUser_fulfilled =>
      mkAuthState false None idle None
  | logoutUser_rejected payload =>
      mkAuthState false None failed (Some payload)
  end.

(** How the two slices correspond: the user without its [username], the
    status as it is, the state without its [accessToken]; every action
    but [setAccessToken] has its counterpart. *)
Definition forget_user (u : AuthSlice.User) : User :=
  mkUser (AuthSlice.id u) (AuthSlice.email u) (AuthSlice.name u).

Definition forget_status (s : AuthSlice.Status) : Status :=
  match s with
  | AuthSlice.idle => idle
  | AuthSlice.loading => loading
  | AuthSlice.succeeded => succeeded
  | AuthSlice.failed => failed
  end.

Definition forget (state : AuthSlice.AuthState) : AuthState :=
  mkAuthState (AuthSlice.isAuthenticated state)
              (forget_user <$> AuthSlice.user state)
              (forget_status (AuthSlice.status state))
              (AuthSlice.error state).

Definition forget_action (action : AuthSlice.Action) : option Action :=
  match action with
  | AuthSlice.clearAuthError => Some clearAuthError
  | AuthSlice.setAccessToken _ => None
  | AuthSlice.fetchUser_pending => Some fetchUser_pending
  | AuthSlice.fetchUser_fulfilled payload => Some (fetchUser_fulfilled (forget_user payload))
  | AuthSlice.fetchUser_rejected payload => Some (fetchUser_rejected payload)
  | AuthSlice.loginUser_pending => Some loginUser_pending
  | AuthSlice.loginUser_fulfilled _ => Some loginUser_fulfilled
  | AuthSlice.loginUser_rejected payload => Some (loginUser_rejected payload)
  | AuthSlice.registerUser_pending => Some registerUser_pending
  | AuthSlice.registerUser_fulfilled => Some registerUser_fulfilled
  | AuthSlice.registerUser_rejected payload => Some (registerUser_rejected payload)
  | AuthSlice.logoutUser_pending => Some logoutUser_pending
  | AuthSlice.logoutUser_fulfilled => Some logoutUser_fulfilled
  | AuthSlice.logoutUser_rejected payload => Some (logoutUser_rejected payload)
  end.

End AuthSliceV0.

(** ** components/ProtectedRoute.tsx *)

Module ProtectedRoute.

(** What the component returns: the loading indicator, its children, or
    nothing. *)
Inductive View := LoadingSession | Children | Nothing.

Section Route.

(** The platform's [encodeURIComponent]. *)
Variable encodeURIComponent : string → string.

(** The effect: the target of [router.push], if it navigates. *)
Definition effect (isAuthenticated : bool) (authStatus : AuthSlice.Status)
    (pathname : string) : option string :=
  match authStatus with
  | AuthSlice.loading | AuthSlice.idle => None
  | _ =>
      if negb isAuthenticated then
        if negb (String.eqb pathname "/login") && negb (String.eqb pathname "/register") then
          Some ("/login?redirect_to=" +:+ encodeURIComponent pathname)
        else if String.eqb pathname "/login" && isAuthenticated then
          Some "/"
        else None
      else None
  end.

End Route.

Definition render (isAuthenticated : bool) (authStatus : AuthSlice.Status)
    (pathname : string) : View :=
  if match authStatus with
     | AuthSlice.loading | AuthSlice.idle => true
     | _ => false
     end
     && negb (String.eqb pathname "/login") && negb (String.eqb pathname "/register")
  then LoadingSession
  else if isAuthenticated || String.eqb pathname "/login" || String.eqb pathname "/register"
  then Children
  else Nothing.

End ProtectedRoute.

(** ** app/settings/page.tsx *)

Module SettingsPage.

Record State := mkState {
  isLoading : bool;
  refreshKeyListTrigger : nat
}.

(** The state of the first render. *)
Definition initial : State := mkState true 0.

Inductive Command :=
| Push (url : string)                 (* router.push(url) *)
| SetIsLoading (value : bool).        (* setIsLoading(value) *)

Definition effect (auth : AuthSlice.AuthState) : option Command :=
  match AuthSlice.status auth with
  | AuthSlice.idle | AuthSlice.loading => None
  | _ =>
      if negb (AuthSlice.isAuthenticated auth) then Some (Push "/login")
      else Some (SetIsLoading false)
  end.

(** A state setter takes effect; a navigation leaves the state alone. *)
Definition apply (c : option Command) (st : State) : State :=
  match c with
  | Some (SetIsLoading value) => mkState value (refreshKeyListTrigger st)
  | _ => st
  end.

(** What the page returns: one of its two placeholders, or the settings
    with the name shown after "Logged in as", if there is a user. *)
Inductive View :=
| LoadingSettings
| Redirecting
| Settings (loggedInAs : option string).

Definition render (auth : AuthSlice.AuthState) (st : State) : View :=
  if isLoading st
     || match AuthSlice.status auth with
        | AuthSlice.idle | AuthSlice.loading => true
        | _ => false
        end
  then LoadingSettings
  else if negb (AuthSlice.isAuthenticated auth) then Redirecting
  else Settings ((λ user, or_else (Some (AuthSlice.username user)) (AuthSlice.email user))
                   <$> AuthSlice.user auth).

Definition refreshApiKeys (st : State) : State :=
  mkState (isLoading st) (refreshKeyListTrigger st + 1).

(** The page over time: after each render with the auth state of the
    moment, the effect runs. *)
Definition live (st : State) (auths : list AuthSlice.AuthState) : State :=
  foldl (λ st auth, apply (effect auth) st) st auths.

End SettingsPage.

(** ** app/login/page.tsx *)

Module LoginPage.

Inductive Command :=
| Push (url : string)                     (* router.push(url) *)
| Dispatch (action : AuthSlice.Action).   (* dispatch(action) *)

Definition effect (isAuthenticated : bool) : list Command :=
  (if isAuthenticated then [Push "/"] else []) ++ [Dispatch AuthSlice.clearAuthError].

(** [handleSubmit]: the actions that reach the store, in order. *)
Definition handleSubmit (login : Fetch.Result AuthThunks.LoginBody)
    (me : Fetch.Result AuthSlice.User) : list AuthSlice.Action :=
  AuthSlice.clearAuthError :: AuthThunks.dispatch_loginUser login me.

End LoginPage.

(** ** The register page *)

Module RegisterPage.

Inductive Command :=
| Alert (message : string)
| Push (url : string).

(** [handleSubmit]: the actions that reach the store and what the page
    does then. *)
Definition handleSubmit (o : Fetch.Result AuthSlice.User)
  : list AuthSlice.Action * list Command :=
  let resultAction := AuthThunks.registerUser o in
  (AuthSlice.clearAuthError :: AuthThunks.dispatch_registerUser o,
   match resultAction with
   | AuthSlice.registerUser_fulfilled =>
       [Alert "Registration successful! Please login."; Push "/login"]
   | _ => []
   end).

End RegisterPage.

(** ** components/settings/GenerateApiKeyDialog.tsx *)

Module GenerateApiKeyDialog.

Record NewApiKeyInfo := mkInfo {
  api_key : string;
  id : string;
  name : option string;
  key_prefix : string;
  scopes : list string
}.

Record State := mkState {
  isOpen : bool;
  keyName : string;
  isLoading : bool;
  newApiKeyInfo : option NewApiKeyInfo;
  error : option string
}.

Definition initial : State := mkState false "" false None None.

(** What a handler does besides setting state. *)
Inductive Effect :=
| Post (authorization : string) (payload_name : option string)
                                   (* fetch('/api/v1/keys', { method: 'POST', ... }) *)
| OnKeyGenerated                   (* onKeyGenerated() *)
| Toast (title description : string) (destructive : bool)
| ClipboardWrite (text : string).  (* navigator.clipboard.writeText(text) *)

(** The [catch] block of [handleSubmit]. *)
Definition failed (message : string) (st : State) : State * list Effect :=
  (mkState (isOpen st) (keyName st) (isLoading st) (newApiKeyInfo st) (Some message),
   [Toast "Error generating API key" message true]).

Section Submit.

(** The platform's [String.prototype.trim]. *)
Variable trim : string → string.

Definition handleSubmit (accessToken : option string)
    (o : Fetch.Result NewApiKeyInfo) (st : State) : State * list Effect :=
  if negb (truthy accessToken) then
    (mkState (isOpen st) (keyName st) (isLoading st) (newApiKeyInfo st)
             (Some "Authentication token not found. Please log in again."),
     [])
  else
    let st := mkState (isOpen st) (keyName st) true None None in
    let payload_name :=
      if negb (String.eqb (trim (keyName st)) "") then Some (trim (keyName st)) else None in
    let '(st, effects) :=
      match o with
      | Fetch.Throws message => failed message st
      | Fetch.Responds response =>
          match Fetch.json response with
          | Fetch.JsonThrows message => failed message st
          | Fetch.JsonParsed data =>
              if negb (Fetch.ok response) then
                failed (or_else (Fetch.detail data)
                          ("Failed to generate API key: " +:+ Fetch.statusText response)) st
              else
                (mkState (isOpen st) (keyName st) (isLoading st)
                         (Some (Fetch.data data)) (error st),
                 [OnKeyGenerated])
          end
      end in
    (mkState (isOpen st) (keyName st) false (newApiKeyInfo st) (error st),
     Post (bearer accessToken) payload_name :: effects).

End Submit.

(** [handleCopyToClipboard], up to the settlement of the clipboard write. *)
Definition handleCopyToClipboard (st : State) : list Effect :=
  match newApiKeyInfo st with
  | Some info =>
      if negb (String.eqb (api_key info) "") then [ClipboardWrite (api_key info)] else []
  | None => []
  end.

Definition closeDialog (st : State) : State :=
  mkState false "" (isLoading st) None None.

(** The [onOpenChange] handler of the dialog. *)
Definition onOpenChange (open : bool) (st : State) : State :=
  let st := mkState open (keyName st) (isLoading st) (newApiKeyInfo st) (error st) in
  if negb open then closeDialog st else st.

(** What the dialog shows inside: the generated key, or the form with
    the error line if there is one. *)
Inductive Content :=
| KeyGenerated (info : NewApiKeyInfo)
| Form (errorLine : option string) (disabled : bool).

Definition content (st : State) : Content :=
  match newApiKeyInfo st with
  | Some info => KeyGenerated info
  | None => Form (if truthy (error st) then error st else None) (isLoading st)
  end.

End GenerateApiKeyDialog.

(** ** The API key list *)

Module ApiKeyList.

Record ApiKey := mkKey {
  id : string;
  name : option string;
  key_prefix : string;
  scopes : list string;
  is_active : bool;
  created_at : string;
  last_used_at : option string;
  expires_at : option string
}.

Record State := mkState {
  apiKeys : list ApiKey;
  isLoading : bool;
  error : option string
}.

Definition initial : State := mkState [] true None.

Inductive Effect :=
| Get (authorization : string)                        (* fetch('/api/v1/keys', GET) *)
| Delete (keyPrefix : string) (authorization : string) (* fetch(`/api/v1/keys/${keyPrefix}`, DELETE) *)
| Toast (title description : string) (destructive : bool)
| FetchApiKeys.                                       (* fetchApiKeys() *)

(** The [catch] block of [fetchApiKeys]. *)
Definition failed (message : string) (st : State) : State * list Effect :=
  (mkState (apiKeys st) (isLoading st) (Some message),
   [Toast "Error fetching API keys" message true]).

Definition fetchApiKeys (accessToken : option string)
    (o : Fetch.Result (list ApiKey)) (st : State) : State * list Effect :=
  if negb (truthy accessToken) then
    (mkState (apiKeys st) false (Some "Not authenticated to fetch API keys."), [])
  else
    let st := mkState (apiKeys st) true None in
    let '(st, effects) :=
      match o with
      | Fetch.Throws message => failed message st
      | Fetch.Responds response =>
          if negb (Fetch.ok response) then
            match Fetch.json response with
            | Fetch.JsonParsed errorData =>
                failed (or_else (Fetch.detail errorData)
                          ("Failed to fetch API keys: " +:+ Fetch.statusText response)) st
            | Fetch.JsonThrows message => failed message st
            end
          else
            match Fetch.json response with
            | Fetch.JsonParsed data =>
                (mkState (Fetch.data data) (isLoading st) (error st), [])
            | Fetch.JsonThrows message => failed message st
            end
      end in
    (mkState (apiKeys st) false (error st), Get (bearer accessToken) :: effects).

(** [handleRevoke]: [confirmed] is the answer to [confirm(...)]. *)
Definition handleRevoke (keyPrefix : string) (accessToken : option string)
    (confirmed : bool) (o : Fetch.Result unit) : list Effect :=
  if negb (truthy accessToken) then
    [Toast "Authentication Error" "Access token not found." true]
  else if negb confirmed then []
  else
    Delete keyPrefix (bearer accessToken) ::
    match o with
    | Fetch.Throws message => [Toast "Error revoking API key" message true]
    | Fetch.Responds response =>
        if negb (Fetch.ok response) then
          let errorDetail := "Failed to revoke API key: " +:+ Fetch.statusText response in
          let errorDetail :=
            match Fetch.json response with
            | Fetch.JsonParsed errorData => or_else (Fetch.detail errorData) errorDetail
            | Fetch.JsonThrows _ => errorDetail
            end in
          [Toast "Error revoking API key" errorDetail true]
        else
          [Toast "API Key Revoked"
                 ("Key with prefix " +:+ keyPrefix +:+ " has been revoked.") false;
           FetchApiKeys]
    end.

Inductive View :=
| LoadingKeys
| ErrorText (message : string)
| NoKeys
| Table (rows : list ApiKey).

Definition render (st : State) : View :=
  if isLoading st then LoadingKeys
  else
    match (if truthy (error st) then error st else None) with
    | Some message => ErrorText message
    | None =>
        match apiKeys st with
        | [] => NoKeys
        | rows => Table rows
        end
    end.

End ApiKeyList.

(** ** Reading more of the client's log *)

Module Answers.
Import ApiClient.

(** The callers whose promise was settled, fulfilled or rejected, in order. *)
Definition answers (l : list Effect) : list nat :=
  omap (λ e, match e with
             | Returned c _ | Thrown c _ => Some c
             | _ => None
             end) l.

(** The callers that are accounted for outside the wire: answered,
    suspended at the renewal call, or queued. *)
Definition settled_or_waiting (w : World) : list nat :=
  answers (log w) ++ callers (awaiting w) ++ callers (failedQueue w).

(** Every call made so far is in exactly one place. *)
Record Accounted (w : World) : Prop := mkAccounted {
  acc_nodup : NoDup (settled_or_waiting w);
  acc_apart : ∀ c, c ∈ settled_or_waiting w → inflight w !! c = None;
  acc_all : ∀ c, c < nextId w ↔ c ∈ settled_or_waiting w ∨ is_Some (inflight w !! c)
}.

End Answers.

(** ** Concrete inputs for the rest of the auth code *)

Module Sample.

Definition alice : AuthSlice.User :=
  AuthSlice.mkUser "7b0c" "" "alice@example.com" None.

(** A session that is authenticated, its check settled. *)
Definition signedIn : AuthSlice.AuthState :=
  AuthSlice.mkAuthState true (Some alice) (Some "T1") AuthSlice.succeeded None.

Definition unauthorized {A} : Fetch.Response A :=
  Fetch.mkResponse 401 "Unauthorized" (Fetch.JsonThrows "Unexpected end of JSON input").

Definition serverError {A} : Fetch.Response A :=
  Fetch.mkResponse 500 "Internal Server Error"
    (Fetch.JsonThrows "Unexpected token < in JSON").

(** The answers to a login and to the user fetch after it. *)
Definition loggedIn : Fetch.Response AuthThunks.LoginBody :=
  Fetch.mkResponse 200 "OK"
    (Fetch.JsonParsed (Fetch.mkJson None (AuthThunks.LoginValue "T1"))).

Definition me : Fetch.Response AuthSlice.User :=
  Fetch.mkResponse 200 "OK" (Fetch.JsonParsed (Fetch.mkJson None alice)).

(** An ok answer to a login whose body is [null]. *)
Definition nullBody : Fetch.Response AuthThunks.LoginBody :=
  Fetch.mkResponse 200 "OK"
    (Fetch.JsonParsed
       (Fetch.mkJson None
          (AuthThunks.LoginNull "Cannot read properties of null (reading 'access_token')"))).

(** A key as the list endpoint returns it, and the answer that lists it. *)
Definition listed : ApiKeyList.ApiKey :=
  ApiKeyList.mkKey "k1" (Some "cli") "om-3f" ["memories:read"] true
    "2025-05-01T10:00:00Z" None None.

Definition oneKey : Fetch.Response (list ApiKeyList.ApiKey) :=
  Fetch.mkResponse 200 "OK" (Fetch.JsonParsed (Fetch.mkJson None [listed])).

Definition newKey : GenerateApiKeyDialog.NewApiKeyInfo :=
  GenerateApiKeyDialog.mkInfo "om-3f9a" "k1" (Some "cli") "om-3f" ["memories:read"].

Definition created : Fetch.Response GenerateApiKeyDialog.NewApiKeyInfo :=
  Fetch.mkResponse 201 "Created" (Fetch.JsonParsed (Fetch.mkJson None newKey)).

Definition typed : GenerateApiKeyDialog.State :=
  GenerateApiKeyDialog.mkState true " cli " false None None.

End Sample.

(** * Properties *)

Import ApiClient.

(** ** The log projections distribute over concatenation *)

Lemma renewals_app l1 l2 : renewals (l1 ++ l2) = renewals l1 + renewals l2.
Proof. unfold renewals. by rewrite omap_app, length_app. Qed.

Lemma logouts_app l1 l2 : logouts (l1 ++ l2) = logouts l1 + logouts l2.
Proof. unfold logouts. by rewrite omap_app, length_app. Qed.

Lemma pushes_app l1 l2 : pushes (l1 ++ l2) = pushes l1 ++ pushes l2.
Proof. apply omap_app. Qed.

Lemma settlements_app l1 l2 : settlements (l1 ++ l2) = settlements l1 ++ settlements l2.
Proof. apply omap_app. Qed.

Lemma sends_app l1 l2 : sends (l1 ++ l2) = sends l1 ++ sends l2.
Proof. apply omap_app. Qed.

Lemma rejections_app l1 l2 : rejections (l1 ++ l2) = rejections l1 ++ rejections l2.
Proof. apply omap_app. Qed.

(** ** processQueue and the reactions it schedules *)

(** The loop of [processQueue] settles the entries from first to last
    and schedules one reaction for each, touching nothing else. *)
Lemma foldl_settle error token q w :
  foldl (settle error token) w q =
  mkWorld (store w) (isRefreshing w) (failedQueue w) (awaiting w) (inflight w)
    (jobs w ++ map (λ p, match error with
                         | Some e => CatchJob p e
                         | None => ThenJob p token
                         end) q)
    (nextId w)
    (log w ++ map (λ p, Settled (caller p)
                          match error with
                          | Some e => Rejected e
                          | None => Resolved token
                          end) q).
Proof.
  revert w. induction q as [|p q IH]; intros w.
  - destruct w; simpl. by rewrite !app_nil_r.
  - simpl. rewrite IH. destruct error; simpl; by rewrite <- !app_assoc.
Qed.

(** Running the [.then] reactions of the entries [q] resends each of
    them, in order, with the header the reaction writes. *)
Lemma foldl_then token q w :
  foldl runJob w (map (λ p, ThenJob p token) q) =
  mkWorld (store w) (isRefreshing w) (failedQueue w) (awaiting w)
    (foldl (λ m p, <[caller p :=
              requestInterceptor (store w)
                (setAuthorization (bearer token) (originalRequest p))]> m)
           (inflight w) q)
    (jobs w) (nextId w)
    (log w ++ map (λ p, Sent (caller p)
                          (requestInterceptor (store w)
                             (setAuthorization (bearer token) (originalRequest p)))) q).
Proof.
  revert w. induction q as [|p q IH]; intros w.
  - destruct w; simpl. by rewrite app_nil_r.
  - simpl. rewrite IH. simpl. by rewrite <- app_assoc.
Qed.

(** Running the [.catch] reactions hands the error to each caller. *)
Lemma foldl_catch err q w :
  foldl runJob w (map (λ p, CatchJob p err) q) =
  mkWorld (store w) (isRefreshing w) (failedQueue w) (awaiting w) (inflight w)
    (jobs w) (nextId w)
    (log w ++ map (λ p, Thrown (caller p) err) q).
Proof.
  revert w. induction q as [|p q IH]; intros w.
  - destruct w; simpl. by rewrite app_nil_r.
  - simpl. rewrite IH. simpl. by rewrite <- app_assoc.
Qed.

Lemma drain_idle w : jobs w = [] → drain w = w.
Proof. destruct w; simpl; intros ->. reflexivity. Qed.

(** ** One turn of the loop, case by case *)

Section Turns.

Variable w : World.
Hypothesis quiet : jobs w = [].

(** A failure that is not a first authentication failure goes to the caller. *)
Lemma step_pass c r sent :
  inflight w !! c = Some sent →
  is401 (mkError sent r) && negb (truthy_flag (_retry sent)) = false →
  step w (ResponseErr c r) =
  emit (Thrown c (mkError sent r)) (set_inflight (delete c (inflight w)) w).
Proof.
  intros Hc Hg. unfold step, handle. rewrite Hc.
  unfold responseErrorInterceptor. cbn [config]. rewrite Hg.
  apply drain_idle. exact quiet.
Qed.

(** A first authentication failure during a renewal is queued. *)
Lemma step_enqueue c r sent :
  inflight w !! c = Some sent →
  is401 (mkError sent r) && negb (truthy_flag (_retry sent)) = true →
  isRefreshing w = true →
  step w (ResponseErr c r) =
  emit (Enqueued c)
    (set_failedQueue (failedQueue w ++ [mkWaiter c sent])
       (set_inflight (delete c (inflight w)) w)).
Proof.
  intros Hc Hg Hr. unfold step, handle. rewrite Hc.
  unfold responseErrorInterceptor. cbn [config]. rewrite Hg.
  cbn [isRefreshing set_inflight]. rewrite Hr.
  apply drain_idle. exact quiet.
Qed.

(** A first authentication failure outside a renewal starts one. *)
Lemma step_initiate c r sent :
  inflight w !! c = Some sent →
  is401 (mkError sent r) && negb (truthy_flag (_retry sent)) = true →
  isRefreshing w = false →
  step w (ResponseErr c r) =
  emit RefreshPost
    (set_awaiting (awaiting w ++ [mkWaiter c (markRetry sent)])
       (set_isRefreshing true (set_inflight (delete c (inflight w)) w))).
Proof.
  intros Hc Hg Hr. unfold step, handle. rewrite Hc.
  unfold responseErrorInterceptor. cbn [config]. rewrite Hg.
  cbn [isRefreshing set_inflight]. rewrite Hr.
  apply drain_idle. exact quiet.
Qed.

(** The renewal call is fulfilled. *)
Lemma step_refresh_ok frame rest t :
  awaiting w = frame :: rest →
  step w (RefreshOk t) =
  let s := AuthSlice.reducer (store w) (AuthSlice.setAccessToken (Some t)) in
  let resent p :=
    requestInterceptor s (setAuthorization (bearer (Some t)) (originalRequest p)) in
  mkWorld s false [] rest
    (foldl (λ m p, <[caller p := resent p]> m)
           (<[caller frame := resent frame]> (inflight w)) (failedQueue w))
    [] (nextId w)
    (log w ++ map (λ p, Settled (caller p) (Resolved (Some t))) (failedQueue w)
           ++ Sent (caller frame) (resent frame)
           :: map (λ p, Sent (caller p) (resent p)) (failedQueue w)).
Proof.
  intros Ha. unfold step, handle. rewrite Ha.
  unfold resumeInterceptor, processQueue, drain.
  rewrite foldl_settle. cbn. rewrite quiet. cbn.
  rewrite foldl_then. cbn. by rewrite <- !app_assoc.
Qed.

(** The renewal call is rejected. *)
Lemma step_refresh_err frame rest r :
  awaiting w = frame :: rest →
  step w (RefreshErr r) =
  let err := mkError refreshRequest r in
  mkWorld (AuthSlice.reducer (store w) AuthSlice.logoutUser_pending) false [] rest
    (inflight w) [] (nextId w)
    (log w ++ LogoutPost
           :: map (λ p, Settled (caller p) (Rejected err)) (failedQueue w)
           ++ Thrown (caller frame) err
           :: map (λ p, Thrown (caller p) err) (failedQueue w)).
Proof.
  intros Ha. unfold step, handle. rewrite Ha.
  unfold resumeInterceptor, processQueue, drain.
  rewrite foldl_settle. cbn. rewrite quiet. cbn.
  rewrite foldl_catch. cbn. by rewrite <- !app_assoc.
Qed.

End Turns.

(** ** The invariant of the loop *)

Lemma omap_map {A B C} (f : B → option C) (g : A → B) (l : list A) :
  omap f (map g l) = omap (λ x, f (g x)) l.
Proof. induction l as [|x l IH]; csimpl; [done|]. by rewrite IH. Qed.

Lemma omap_none {A C} (l : list A) : omap (λ _ : A, @None C) l = [].
Proof. by induction l. Qed.

Lemma omap_some {A C} (h : A → C) (l : list A) : omap (λ x, Some (h x)) l = map h l.
Proof. induction l as [|x l IH]; csimpl; [done|]. by rewrite IH. Qed.

(** Normalises the projections of a log built by the turns above. *)
Ltac log_norm :=
  unfold renewals, logouts, pushes, settlements, sends, rejections in *;
  repeat first
    [ rewrite omap_app | rewrite omap_map | rewrite omap_none
    | rewrite omap_some | rewrite length_app | rewrite app_nil_r
    | rewrite length_map | progress csimpl ].

Lemma Inv_init : Inv init.
Proof. by split. Qed.

Lemma Inv_step w e : Inv w → Inv (step w e).
Proof.
  intros Hw. pose proof Hw as [Hj Hs Hi Hq].
  destruct e as [cfg|c r|c r|t|r|o|a].
  - (* Call *)
    unfold step, handle, apiClient. rewrite drain_idle by done.
    split; cbn; try done.
    rewrite pushes_app, settlements_app. cbn. by rewrite !app_nil_r.
  - (* ResponseOk *)
    unfold step, handle. destruct (inflight w !! c) as [sent|]; [|by rewrite drain_idle].
    rewrite drain_idle by done. split; cbn; try done.
    rewrite pushes_app, settlements_app. cbn. by rewrite !app_nil_r.
  - (* ResponseErr *)
    destruct (inflight w !! c) as [sent|] eqn:Hc;
      [|unfold step, handle; rewrite Hc; by rewrite drain_idle].
    destruct (is401 (mkError sent r) && negb (truthy_flag (_retry sent))) eqn:Hg.
    + destruct (isRefreshing w) eqn:Hr.
      * rewrite (step_enqueue w Hj c r sent Hc Hg Hr).
        split; cbn; try done.
        -- by rewrite Hr.
        -- rewrite Hr. done.
        -- rewrite pushes_app, settlements_app. cbn. rewrite app_nil_r.
           unfold callers. rewrite map_app. cbn. rewrite Hq. by rewrite <- app_assoc.
      * rewrite (step_initiate w Hj c r sent Hc Hg Hr).
        split; cbn; try done.
        -- rewrite length_app, Hs. done.
        -- rewrite pushes_app, settlements_app. cbn. by rewrite !app_nil_r.
    + rewrite (step_pass w Hj c r sent Hc Hg).
      split; cbn; try done.
      rewrite pushes_app, settlements_app. cbn. by rewrite !app_nil_r.
  - (* RefreshOk *)
    destruct (awaiting w) as [|frame rest] eqn:Ha;
      [unfold step, handle; rewrite Ha; by rewrite drain_idle|].
    rewrite (step_refresh_ok w Hj frame rest t Ha). cbn zeta.
    assert (rest = []) as ->.
    { destruct (isRefreshing w); cbn in Hs; [|done]. by destruct rest. }
    split; cbn; try done.
    log_norm. rewrite fmap_app, Hq. f_equal.
    unfold callers. by rewrite <- list_fmap_compose.
  - (* RefreshErr *)
    destruct (awaiting w) as [|frame rest] eqn:Ha;
      [unfold step, handle; rewrite Ha; by rewrite drain_idle|].
    rewrite (step_refresh_err w Hj frame rest r Ha). cbn zeta.
    assert (rest = []) as ->.
    { destruct (isRefreshing w); cbn in Hs; [|done]. by destruct rest. }
    split; cbn; try done.
    log_norm. rewrite fmap_app, Hq. f_equal.
    unfold callers. by rewrite <- list_fmap_compose.
  - (* LogoutSettled *)
    unfold step, handle. rewrite drain_idle by done. by split.
  - (* StoreAction *)
    unfold step, handle. rewrite drain_idle by done. by split.
Qed.

Lemma Inv_run es : ∀ w, Inv w → Inv (run w es).
Proof.
  induction es as [|e es IH]; intros w Hw; [done|].
  apply IH, Inv_step, Hw.
Qed.

Lemma reachable_Inv w : reachable w → Inv w.
Proof. intros [es ->]. apply Inv_run, Inv_init. Qed.

Lemma reachable_step w e : reachable w → reachable (step w e).
Proof.
  intros [es ->]. exists (es ++ [e]). unfold run. by rewrite foldl_app.
Qed.

Lemma reachable_run w es : reachable w → reachable (run w es).
Proof.
  intros [es0 ->]. exists (es0 ++ es). unfold run. by rewrite foldl_app.
Qed.

(** ** Callers and retry markers *)

Lemma foldl_insert_other (f : Waiter → RequestConfig) q : ∀ (m : gmap nat RequestConfig) c,
  c ∉ callers q →
  foldl (λ m p, <[caller p := f p]> m) m q !! c = m !! c.
Proof.
  induction q as [|p q IH]; intros m c Hc; [done|].
  cbn in Hc. apply not_elem_of_cons in Hc as [Hne Hc].
  cbn [foldl]. rewrite IH by done.
  by apply lookup_insert_ne.
Qed.

Lemma foldl_insert_in (f : Waiter → RequestConfig) q : ∀ (m : gmap nat RequestConfig) p,
  NoDup (callers q) → p ∈ q →
  foldl (λ m p, <[caller p := f p]> m) m q !! caller p = Some (f p).
Proof.
  induction q as [|p0 q IH]; intros m p Hnd Hp; [set_solver|].
  cbn in Hnd. apply NoDup_cons in Hnd as [Hp0 Hnd].
  cbn [foldl]. apply elem_of_cons in Hp as [->|Hp].
  - rewrite foldl_insert_other by done. apply lookup_insert_eq.
  - by apply IH.
Qed.

Lemma foldl_insert_is_Some (f : Waiter → RequestConfig) q :
  ∀ (m : gmap nat RequestConfig) c,
  is_Some (foldl (λ m p, <[caller p := f p]> m) m q !! c) →
  is_Some (m !! c) ∨ c ∈ callers q.
Proof.
  induction q as [|p q IH]; intros m c Hc; [by left|].
  cbn [foldl] in Hc. apply IH in Hc as [Hc|Hc].
  - destruct (decide (caller p = c)) as [<-|Hne].
    + right. cbn. apply elem_of_cons. by left.
    + left. by rewrite lookup_insert_ne in Hc.
  - right. cbn. apply elem_of_cons. by right.
Qed.

Lemma Wf_init : Wf init.
Proof.
  split; cbn; try done.
  - constructor.
  - intros c [Hc|Hc]; [set_solver|].
    rewrite lookup_empty in Hc. by destruct Hc.
Qed.

(** Removing a request from the wire keeps everybody apart. *)
Lemma Wf_delete w c (f : World → World) :
  awaiting (f (set_inflight (delete c (inflight w)) w)) = awaiting w →
  failedQueue (f (set_inflight (delete c (inflight w)) w)) = failedQueue w →
  inflight (f (set_inflight (delete c (inflight w)) w)) = delete c (inflight w) →
  nextId (f (set_inflight (delete c (inflight w)) w)) = nextId w →
  Wf w → Wf (f (set_inflight (delete c (inflight w)) w)).
Proof.
  intros Ha Hq Hi Hn [Hnd Hap Hb Hm Hu].
  split; rewrite ?Ha, ?Hq, ?Hi, ?Hn; try done.
  - intros c' Hc'. apply lookup_delete_None. right. by apply Hap.
  - intros c' [Hc'|Hc']; apply Hb; [by left|right].
    apply lookup_delete_is_Some in Hc'. apply Hc'.
Qed.

Lemma Wf_step w e : Inv w → Wf w → Wf (step w e).
Proof.
  intros Hw Hwf. pose proof Hw as [Hj Hs Hi Hq]. pose proof Hwf as [Hnd Hap Hb Hm Hu].
  destruct e as [cfg|c r|c r|t|r|o|a].
  - (* Call *)
    unfold step, handle, apiClient. rewrite drain_idle by done.
    split; cbn; try done.
    + intros c Hc. rewrite lookup_insert_ne; [by apply Hap|].
      intros <-. specialize (Hb (nextId w) (or_introl Hc)). lia.
    + intros c [Hc|Hc].
      * specialize (Hb c (or_introl Hc)). lia.
      * destruct (decide (nextId w = c)) as [<-|Hne]; [lia|].
        rewrite lookup_insert_ne in Hc by done.
        specialize (Hb c (or_intror Hc)). lia.
  - (* ResponseOk *)
    unfold step, handle. destruct (inflight w !! c) as [sent|]; [|by rewrite drain_idle].
    rewrite drain_idle by done.
    by apply (Wf_delete w c (responseInterceptor c r)).
  - (* ResponseErr *)
    destruct (inflight w !! c) as [sent|] eqn:Hc;
      [|unfold step, handle; rewrite Hc; by rewrite drain_idle].
    assert (c ∉ callers (awaiting w) ++ callers (failedQueue w)) as Hfresh.
    { intros Hin. apply Hap in Hin. congruence. }
    assert (c < nextId w) as Hlt by (apply Hb; right; by rewrite Hc).
    destruct (is401 (mkError sent r) && negb (truthy_flag (_retry sent))) eqn:Hg.
    + apply andb_prop in Hg as Hg'. destruct Hg' as [_ Hg'].
      apply negb_true_iff in Hg'.
      destruct (isRefreshing w) eqn:Hr.
      * rewrite (step_enqueue w Hj c r sent Hc Hg Hr).
        split; cbn.
        -- unfold callers in *. rewrite map_app, app_assoc. cbn.
           apply NoDup_app. split_and!; [done| |apply NoDup_singleton].
           intros x Hx Hx'. apply list_elem_of_singleton in Hx' as ->. done.
        -- intros c'. unfold callers in *. rewrite map_app, app_assoc. cbn.
           intros Hc'. apply elem_of_app in Hc' as [Hc'|Hc'].
           ++ apply lookup_delete_None. right. by apply Hap.
           ++ apply list_elem_of_singleton in Hc' as ->. apply lookup_delete_eq.
        -- intros c'. unfold callers in *. rewrite map_app, app_assoc. cbn.
           intros [Hc'|Hc'].
           ++ apply elem_of_app in Hc' as [Hc'|Hc']; [apply Hb; by left|].
              by apply list_elem_of_singleton in Hc' as ->.
           ++ apply Hb. right. apply lookup_delete_is_Some in Hc'. apply Hc'.
        -- done.
        -- apply Forall_app. split; [done|]. by constructor.
      * rewrite (step_initiate w Hj c r sent Hc Hg Hr).
        cbn in Hs. apply nil_length_inv in Hs.
        specialize (Hi eq_refl).
        split; cbn; rewrite ?Hs, ?Hi; cbn.
        -- apply NoDup_singleton.
        -- intros c' Hc'. apply list_elem_of_singleton in Hc' as ->.
           apply lookup_delete_eq.
        -- intros c' [Hc'|Hc'].
           ++ by apply list_elem_of_singleton in Hc' as ->.
           ++ apply Hb. right. apply lookup_delete_is_Some in Hc'. apply Hc'.
        -- by constructor.
        -- constructor.
    + rewrite (step_pass w Hj c r sent Hc Hg).
      by apply (Wf_delete w c (emit (Thrown c (mkError sent r)))).
  - (* RefreshOk *)
    destruct (awaiting w) as [|frame rest] eqn:Ha;
      [unfold step, handle; rewrite Ha; by rewrite drain_idle|].
    rewrite (step_refresh_ok w Hj frame rest t Ha). cbn zeta.
    assert (rest = []) as ->.
    { destruct (isRefreshing w); cbn in Hs; [|done]. by destruct rest. }
    split; cbn; try done.
    + constructor.
    + intros c Hc. set_solver.
    + intros c [Hc|Hc]; [set_solver|].
      apply foldl_insert_is_Some in Hc as [Hc|Hc].
      * destruct (decide (caller frame = c)) as [<-|Hne].
        -- apply Hb. left. cbn. apply elem_of_cons. by left.
        -- rewrite lookup_insert_ne in Hc by done. apply Hb. by right.
      * apply Hb. left. cbn. apply elem_of_cons. by right.
  - (* RefreshErr *)
    destruct (awaiting w) as [|frame rest] eqn:Ha;
      [unfold step, handle; rewrite Ha; by rewrite drain_idle|].
    rewrite (step_refresh_err w Hj frame rest r Ha). cbn zeta.
    assert (rest = []) as ->.
    { destruct (isRefreshing w); cbn in Hs; [|done]. by destruct rest. }
    split; cbn; try done.
    + constructor.
    + intros c Hc. set_solver.
    + intros c [Hc|Hc]; [set_solver|].
      apply Hb. by right.
  - (* LogoutSettled *)
    unfold step, handle. rewrite drain_idle by done. by split.
  - (* StoreAction *)
    unfold step, handle. rewrite drain_idle by done. by split.
Qed.

Lemma reachable_Wf w : reachable w → Wf w.
Proof.
  intros [es ->]. unfold run.
  assert (∀ w0, Inv w0 → Wf w0 → Wf (foldl step w0 es)) as H.
  { induction es as [|e es IH]; intros w0 H1 H2; [done|].
    cbn [foldl]. apply IH; [by apply Inv_step | by apply Wf_step]. }
  apply H; [apply Inv_init | apply Wf_init].
Qed.

(** ** Bursts of first authentication failures *)

Lemma guard_first sent r :
  status r = 401 → truthy_flag (_retry sent) = false →
  is401 (mkError sent (Some r)) && negb (truthy_flag (_retry sent)) = true.
Proof. intros Hs Hm. unfold is401. cbn. by rewrite Hs, Hm. Qed.

Lemma waiters_ext w w' cs :
  (∀ c, c ∈ cs → inflight w' !! c = inflight w !! c) →
  waiters w' cs = waiters w cs.
Proof.
  induction cs as [|c cs IH]; intros H; [done|].
  unfold waiters in *. csimpl. rewrite H by set_solver.
  rewrite IH; [done|]. intros c' Hc'. apply H. set_solver.
Qed.

Lemma waiters_callers w cs :
  Forall (unmarked w) cs → callers (waiters w cs) = cs.
Proof.
  induction 1 as [|c cs [sent [Hc _]] _ IH]; [done|].
  unfold waiters in *. csimpl. rewrite Hc. csimpl. by rewrite IH.
Qed.

Lemma unmarked_ext w w' cs :
  (∀ c, c ∈ cs → inflight w' !! c = inflight w !! c) →
  Forall (unmarked w) cs → Forall (unmarked w') cs.
Proof.
  intros H. rewrite !Forall_forall. intros Hun c Hc.
  destruct (Hun c Hc) as [sent [Hl Hm]]. exists sent. by rewrite H.
Qed.

(** While a renewal is in flight, a burst of first authentication
    failures is queued in its order and changes nothing else. *)
Lemma burst_queued r cs : ∀ w,
  jobs w = [] → isRefreshing w = true → status r = 401 →
  NoDup cs → Forall (unmarked w) cs →
  let w' := run w (failures r cs) in
  jobs w' = [] ∧ store w' = store w ∧ isRefreshing w' = true ∧
  awaiting w' = awaiting w ∧
  failedQueue w' = failedQueue w ++ waiters w cs ∧
  log w' = log w ++ map Enqueued cs.
Proof.
  induction cs as [|c cs IH]; intros w Hj Hr Hs Hnd Hun.
  - cbn. unfold waiters. csimpl. by rewrite !app_nil_r.
  - apply NoDup_cons in Hnd as [Hc Hnd].
    apply Forall_cons in Hun as [[sent [Hl Hm]] Hun].
    cbn zeta. cbn [failures map run foldl].
    rewrite (step_enqueue w Hj c (Some r) sent Hl (guard_first sent r Hs Hm) Hr).
    set (w1 := emit _ _).
    assert (∀ c', c' ∈ cs → inflight w1 !! c' = inflight w !! c') as Hsame.
    { intros c' Hc'. cbn. apply lookup_delete_ne. by intros ->. }
    destruct (IH w1) as (Hj' & Hst' & Hr' & Ha' & Hq' & Hl'); try done.
    { by apply (unmarked_ext w). }
    fold (failures r cs). fold (run w1 (failures r cs)).
    repeat split; try done.
    + rewrite Hq'. rewrite (waiters_ext w w1) by done. cbn.
      unfold waiters. csimpl. rewrite Hl. csimpl. by rewrite <- app_assoc.
    + rewrite Hl'. cbn. by rewrite <- app_assoc.
Qed.

(** Outside a renewal, the first failure of a burst starts the renewal
    and the others are queued behind it. *)
Lemma burst_idle r c cs w :
  Inv w → isRefreshing w = false → status r = 401 →
  NoDup (c :: cs) → Forall (unmarked w) (c :: cs) →
  let w' := run w (failures r (c :: cs)) in
  jobs w' = [] ∧ store w' = store w ∧ isRefreshing w' = true ∧
  callers (awaiting w') = [c] ∧
  failedQueue w' = waiters w cs ∧
  log w' = log w ++ RefreshPost :: map Enqueued cs.
Proof.
  intros [Hj Hsingle Hidle _] Hr Hs Hnd Hun.
  apply NoDup_cons in Hnd as [Hc Hnd].
  apply Forall_cons in Hun as [[sent [Hl Hm]] Hun].
  cbn zeta. cbn [failures map run foldl].
  rewrite (step_initiate w Hj c (Some r) sent Hl (guard_first sent r Hs Hm) Hr).
  set (w1 := emit _ _).
  assert (∀ c', c' ∈ cs → inflight w1 !! c' = inflight w !! c') as Hsame.
  { intros c' Hc'. cbn. apply lookup_delete_ne. by intros ->. }
  destruct (burst_queued r cs w1) as (Hj' & Hst' & Hr' & Ha' & Hq' & Hl'); try done.
  { by apply (unmarked_ext w). }
  fold (failures r cs). fold (run w1 (failures r cs)).
  rewrite Hr in Hsingle. apply nil_length_inv in Hsingle.
  repeat split; try done.
  - rewrite Ha'. cbn. by rewrite Hsingle.
  - rewrite Hq'. cbn. rewrite (Hidle Hr). by apply waiters_ext.
  - rewrite Hl'. cbn. by rewrite <- app_assoc.
Qed.

(** While a renewal is in flight, no turn other than its settlement
    starts a renewal, resumes the suspended call or settles a queued
    continuation; the queue only grows at its end. *)
Lemma quiet_step w e :
  Inv w → isRefreshing w = true → settles_renewal e = false →
  isRefreshing (step w e) = true ∧ awaiting (step w e) = awaiting w ∧
  renewals (log (step w e)) = renewals (log w) ∧
  settlements (log (step w e)) = settlements (log w) ∧
  ∃ more, failedQueue (step w e) = failedQueue w ++ more.
Proof.
  intros [Hj _ _ _] Hr He.
  destruct e as [cfg|c r|c r|t|r|o|a]; try done.
  - unfold step, handle, apiClient. rewrite drain_idle by done. cbn.
    split_and!; try done; [by log_norm | by log_norm |].
    exists []. by rewrite app_nil_r.
  - unfold step, handle.
    destruct (inflight w !! c); rewrite drain_idle by done.
    + cbn. split_and!; try done; [by log_norm | by log_norm |].
      exists []. by rewrite app_nil_r.
    + split_and!; try done. exists []. by rewrite app_nil_r.
  - destruct (inflight w !! c) as [sent|] eqn:Hc.
    + destruct (is401 (mkError sent r) && negb (truthy_flag (_retry sent))) eqn:Hg.
      * rewrite (step_enqueue w Hj c r sent Hc Hg Hr). cbn.
        split_and!; try done; [by log_norm | by log_norm |]. by eexists.
      * rewrite (step_pass w Hj c r sent Hc Hg). cbn.
        split_and!; try done; [by log_norm | by log_norm |].
        exists []. by rewrite app_nil_r.
    + unfold step, handle. rewrite Hc. rewrite drain_idle by done.
      split_and!; try done. exists []. by rewrite app_nil_r.
  - unfold step, handle. rewrite drain_idle by done.
    split_and!; try done. exists []. by rewrite app_nil_r.
  - unfold step, handle. rewrite drain_idle by done.
    split_and!; try done. exists []. by rewrite app_nil_r.
Qed.

Lemma quiet_run es : ∀ w,
  Inv w → isRefreshing w = true → Forall (λ e, settles_renewal e = false) es →
  isRefreshing (run w es) = true ∧ awaiting (run w es) = awaiting w ∧
  renewals (log (run w es)) = renewals (log w) ∧
  settlements (log (run w es)) = settlements (log w) ∧
  ∃ more, failedQueue (run w es) = failedQueue w ++ more.
Proof.
  induction es as [|e es IH]; intros w Hw Hr Hes.
  - split_and!; try done. exists []. by rewrite app_nil_r.
  - apply Forall_cons in Hes as [He Hes].
    destruct (quiet_step w e Hw Hr He) as (Hr1 & Ha1 & Hn1 & Hs1 & [m1 Hq1]).
    destruct (IH (step w e) (Inv_step w e Hw) Hr1 Hes)
      as (Hr2 & Ha2 & Hn2 & Hs2 & [m2 Hq2]).
    cbn [run foldl]. fold (run (step w e) es).
    rewrite Hr2, Ha2, Hn2, Hs2, Hq2, Ha1, Hn1, Hs1, Hq1.
    split_and!; try done. exists (m1 ++ m2). by rewrite app_assoc.
Qed.

(** ** Supporting facts *)

Lemma store_foldl_runJob js : ∀ w, store (foldl runJob w js) = store w.
Proof.
  induction js as [|j js IH]; intros w; [done|].
  cbn [foldl]. rewrite IH. by destruct j.
Qed.

Lemma store_drain w : store (drain w) = store w.
Proof. unfold drain. by rewrite store_foldl_runJob. Qed.

Lemma reducer_logout_cleared state o :
  AuthSlice.cleared (AuthSlice.reducer state (AuthSlice.logoutUser o)).
Proof. by destruct o as [m|[|] [m|d]]. Qed.

(** Resending a request that already carries the renewed credential
    leaves it as it is, whatever the request interceptor finds. *)
Lemma requestInterceptor_renewed state t config :
  AuthSlice.selectAccessToken state = Some t →
  requestInterceptor state (setAuthorization (bearer (Some t)) config) =
  setAuthorization (bearer (Some t)) config.
Proof.
  intros Ht. unfold requestInterceptor. rewrite Ht.
  destruct (truthy (Some t)); [|done].
  unfold setAuthorization. cbn. by rewrite insert_insert_eq.
Qed.

Lemma awaiting_single w :
  Inv w → isRefreshing w = true → ∃ frame, awaiting w = [frame].
Proof.
  intros [_ Hs _ _] Hr. rewrite Hr in Hs.
  destruct (awaiting w) as [|frame [|]]; try done. by exists frame.
Qed.

(** The request interceptor takes the empty string for no credential. *)
Lemma requestInterceptor_empty_token state config :
  AuthSlice.selectAccessToken state = Some "" →
  requestInterceptor state config = config.
Proof. intros H. unfold requestInterceptor. by rewrite H. Qed.

(** ** Retrying after the renewal *)

(** The request interceptor leaves the retry marker alone. *)
Lemma requestInterceptor_retry state config :
  _retry (requestInterceptor state config) = _retry config.
Proof. unfold requestInterceptor. by destruct (truthy _). Qed.

(** The request that started a renewal is resent with the retry marker:
    whatever answer its retry gets goes to the caller and starts no
    renewal. *)
Lemma initiator_retry_final (w : World) (T2 : string) (frame : Waiter)
    (r : option AxiosResponse) :
  reachable w → awaiting w = [frame] →
  let w1 := step w (RefreshOk T2) in
  let w2 := step w1 (ResponseErr (caller frame) r) in
  (∃ sent, inflight w1 !! caller frame = Some sent ∧ _retry sent = Some true ∧
           log w2 = log w1 ++ [Thrown (caller frame) (mkError sent r)]) ∧
  renewals (log w2) = renewals (log w1) ∧
  isRefreshing w2 = false.
Proof.
  intros Hreach Hf w1 w2.
  pose proof (reachable_Inv w Hreach) as Hw.
  pose proof (reachable_Wf w Hreach) as [Hnd _ _ Hm _].
  assert (Inv w1) as Hw1 by apply Inv_step, Hw.
  rewrite Hf in Hnd, Hm. cbn in Hnd. apply NoDup_cons in Hnd as [Hfresh _].
  apply Forall_cons in Hm as [Hm _].
  set (s := AuthSlice.reducer (store w) (AuthSlice.setAccessToken (Some T2))).
  set (sent := requestInterceptor s
                 (setAuthorization (bearer (Some T2)) (originalRequest frame))).
  assert (inflight w1 !! caller frame = Some sent ∧ isRefreshing w1 = false) as [Hl Hr1].
  { subst w1. rewrite (step_refresh_ok w (inv_jobs w Hw) frame [] T2 Hf). cbn.
    split; [|done]. rewrite foldl_insert_other by done. apply lookup_insert_eq. }
  assert (_retry sent = Some true) as Hs.
  { subst sent. by rewrite requestInterceptor_retry. }
  assert (w2 = emit (Thrown (caller frame) (mkError sent r))
                 (set_inflight (delete (caller frame) (inflight w1)) w1)) as ->.
  { subst w2. apply (step_pass w1 (inv_jobs w1 Hw1) _ r sent Hl).
    rewrite Hs. cbn. apply andb_false_r. }
  cbn. split_and!; [by exists sent | by log_norm | done].
Qed.

(** A request that was queued during a renewal is resent without the
    retry marker: when its retry is answered 401, it starts a renewal
    of its own. *)
Lemma queued_retry_renews (w : World) (T2 : string) (p : Waiter) (r : AxiosResponse) :
  reachable w → isRefreshing w = true → p ∈ failedQueue w → status r = 401 →
  let w1 := step w (RefreshOk T2) in
  let w2 := step w1 (ResponseErr (caller p) (Some r)) in
  (∃ sent, inflight w1 !! caller p = Some sent ∧ truthy_flag (_retry sent) = false) ∧
  renewals (log w2) = S (renewals (log w1)) ∧
  callers (awaiting w2) = [caller p] ∧
  isRefreshing w2 = true.
Proof.
  intros Hreach Hr Hp Hst w1 w2.
  pose proof (reachable_Inv w Hreach) as Hw.
  pose proof (reachable_Wf w Hreach) as [Hnd _ _ _ Hu].
  assert (Inv w1) as Hw1 by apply Inv_step, Hw.
  destruct (awaiting_single w Hw Hr) as [frame Hf].
  apply NoDup_app in Hnd as (_ & _ & Hnd).
  rewrite Forall_forall in Hu. specialize (Hu p Hp).
  set (s := AuthSlice.reducer (store w) (AuthSlice.setAccessToken (Some T2))).
  set (sent := requestInterceptor s
                 (setAuthorization (bearer (Some T2)) (originalRequest p))).
  assert (inflight w1 !! caller p = Some sent ∧ isRefreshing w1 = false ∧
          awaiting w1 = []) as (Hl & Hr1 & Ha1).
  { subst w1. rewrite (step_refresh_ok w (inv_jobs w Hw) frame [] T2 Hf). cbn.
    split; [|done].
    by apply (foldl_insert_in
                (λ p, requestInterceptor s
                        (setAuthorization (bearer (Some T2)) (originalRequest p)))). }
  assert (truthy_flag (_retry sent) = false) as Hs.
  { subst sent. by rewrite requestInterceptor_retry. }
  subst w2.
  rewrite (step_initiate w1 (inv_jobs w1 Hw1) _ (Some r) sent Hl
             (guard_first sent r Hst Hs) Hr1).
  cbn. rewrite Ha1. split_and!; [by exists sent | log_norm; lia | done | done].
Qed.

(** ** The properties of the specification *)

(** C1 (single-flight renewal).  Take a state with no renewal in flight
    and a burst of one or more requests, [c] first and then [cs], that
    are on the wire without a retry marker and all answered 401.  The
    burst issues exactly one renewal call: the interceptor call of [c]
    is the one suspended at it and the callers [cs] are queued.  Through
    any further turns [es] that do not settle the renewal, no other
    renewal call is issued and the flag stays set; a first 401 arriving
    then is queued and issues none either. *)
Theorem single_flight (w : World) (r : AxiosResponse) (c : nat) (cs : list nat)
    (es : list Event) :
  reachable w → isRefreshing w = false →
  status r = 401 → NoDup (c :: cs) → Forall (unmarked w) (c :: cs) →
  Forall (λ e, settles_renewal e = false) es →
  let w1 := run w (failures r (c :: cs)) in
  let w2 := run w1 es in
  renewals (log w1) = S (renewals (log w)) ∧
  isRefreshing w1 = true ∧
  callers (awaiting w1) = [c] ∧
  callers (failedQueue w1) = cs ∧
  renewals (log w2) = renewals (log w1) ∧
  isRefreshing w2 = true ∧
  awaiting w2 = awaiting w1 ∧
  ∀ c' sent, inflight w2 !! c' = Some sent → truthy_flag (_retry sent) = false →
    let w3 := step w2 (ResponseErr c' (Some r)) in
    failedQueue w3 = failedQueue w2 ++ [mkWaiter c' sent] ∧
    renewals (log w3) = renewals (log w2) ∧
    isRefreshing w3 = true.
Proof.
  intros Hreach Hidle Hs Hnd Hun Hes w1 w2.
  pose proof (reachable_Inv w Hreach) as Hw.
  destruct (burst_idle r c cs w Hw Hidle Hs Hnd Hun)
    as (Hj1 & Hst1 & Hr1 & Ha1 & Hq1 & Hl1).
  fold w1 in Hj1, Hst1, Hr1, Ha1, Hq1, Hl1.
  assert (Inv w1) as Hw1 by (apply Inv_run, Hw).
  destruct (quiet_run es w1 Hw1 Hr1 Hes) as (Hr2 & Ha2 & Hn2 & _). fold w2 in Hr2, Ha2, Hn2.
  assert (Inv w2) as Hw2 by (apply Inv_run, Hw1).
  split_and!; try done.
  - rewrite Hl1. log_norm. lia.
  - rewrite Hq1. apply waiters_callers. by apply Forall_cons in Hun as [_ ?].
  - intros c' sent Hc' Hm w3. subst w3.
    rewrite (step_enqueue w2 (inv_jobs w2 Hw2) c' (Some r) sent Hc'
               (guard_first sent r Hs Hm) Hr2).
    cbn. split_and!; try done. by log_norm.
Qed.

Lemma single_flight_witness :
  renewals (log (run Scenario.threeSent (failures Scenario.r401 [0; 1; 2]))) = 1 ∧
  callers (awaiting (run Scenario.threeSent (failures Scenario.r401 [0; 1; 2]))) = [0] ∧
  callers (failedQueue (run Scenario.threeSent (failures Scenario.r401 [0; 1; 2]))) = [1; 2].
Proof.
  assert (reachable Scenario.threeSent) as Hreach.
  { exists [StoreAction (AuthSlice.loginUser_fulfilled "T1");
            Call Scenario.getA; Call Scenario.getB; Call Scenario.getC].
    vm_compute. reflexivity. }
  assert (NoDup [0; 1; 2]) as Hnd.
  { apply (bool_decide_unpack (NoDup [0; 1; 2])). vm_compute. exact I. }
  assert (Forall (unmarked Scenario.threeSent) [0; 1; 2]) as Hun.
  { repeat constructor; eexists; split; vm_compute; reflexivity. }
  assert (Forall (λ e, settles_renewal e = false)
            [Call Scenario.getA; StoreAction AuthSlice.clearAuthError]) as Hes.
  { repeat constructor. }
  destruct (single_flight Scenario.threeSent Scenario.r401 0 [1; 2] _
              Hreach eq_refl eq_refl Hnd Hun Hes)
    as (H1 & _ & H2 & H3 & _).
  rewrite H1, H2, H3. vm_compute. split_and!; reflexivity.
Defined.

(** C2, on the code.  The second request of the run failed
    authentication while the renewal was in flight, was queued, and was
    resent when the renewal succeeded: the queue branch of the
    interceptor does not set the retry marker, so the resent request
    carries none.  Answered 401 again, it starts a second renewal for
    itself.  The first request, which started the first renewal and
    carries the marker, is rejected instead and starts none. *)
Theorem queued_request_renews_again :
  let w := Scenario.bothRetried in
  let w' := step w (ResponseErr 1 (Some Scenario.r401)) in
  let w'' := step w (ResponseErr 0 (Some Scenario.r401)) in
  pushes (log w) = [1] ∧
  settlements (log w) = [(1, Resolved (Some "T2"))] ∧
  renewals (log w) = 1 ∧ isRefreshing w = false ∧
  _retry <$> inflight w !! 1 = Some None ∧
  _retry <$> inflight w !! 0 = Some (Some true) ∧
  renewals (log w') = 2 ∧ callers (awaiting w') = [1] ∧ isRefreshing w' = true ∧
  renewals (log w'') = 1 ∧ awaiting w'' = [] ∧ rejections (log w'') =
    [(0, mkError (setAuthorization "Bearer T2"
                    (markRetry (requestInterceptor (store Scenario.loggedIn) Scenario.getA)))
                 (Some Scenario.r401))].
Proof. vm_compute. split_and!; reflexivity. Qed.

(** C3 (FIFO flush).  While a renewal is in flight, let the callers [cs]
    be queued in that order, behind whoever is queued already, and let
    any further turns [es] pass that do not settle the renewal.  The
    queue then holds the earlier callers, then [cs], then the later
    ones.  When the renewal settles, the queued continuations are
    settled in the order of the queue, each with the outcome of the
    renewal: the new credential when it succeeded, the error of the
    renewal call when it failed.  Over the whole run, the callers
    settled are the callers pushed, in the order of the pushes. *)
Theorem fifo_flush (w : World) (r : AxiosResponse) (cs : list nat)
    (es : list Event) (e : Event) :
  reachable w → isRefreshing w = true →
  status r = 401 → NoDup cs → Forall (unmarked w) cs →
  Forall (λ e, settles_renewal e = false) es →
  settles_renewal e = true →
  let w1 := run w (failures r cs) in
  let w2 := run w1 es in
  let w3 := step w2 e in
  callers (failedQueue w1) = callers (failedQueue w) ++ cs ∧
  (∃ later, callers (failedQueue w2) = callers (failedQueue w) ++ cs ++ later) ∧
  settlements (log w3) =
    settlements (log w) ++ map (λ c, (c, outcome_of e)) (callers (failedQueue w2)) ∧
  (settlements (log w3)).*1 = pushes (log w3) ∧
  failedQueue w3 = [].
Proof.
  intros Hreach Hr Hs Hnd Hun Hes He w1 w2 w3.
  pose proof (reachable_Inv w Hreach) as Hw.
  destruct (burst_queued r cs w (inv_jobs w Hw) Hr Hs Hnd Hun)
    as (Hj1 & _ & Hr1 & Ha1 & Hq1 & Hl1).
  fold w1 in Hj1, Hr1, Ha1, Hq1, Hl1.
  assert (Inv w1) as Hw1 by apply Inv_run, Hw.
  assert (callers (failedQueue w1) = callers (failedQueue w) ++ cs) as Hcs.
  { rewrite Hq1. unfold callers. rewrite map_app. f_equal. by apply waiters_callers. }
  destruct (quiet_run es w1 Hw1 Hr1 Hes) as (Hr2 & Ha2 & _ & Hs2 & [more Hq2]).
  fold w2 in Hr2, Ha2, Hs2, Hq2.
  assert (Inv w2) as Hw2 by apply Inv_run, Hw1.
  assert (Inv w3) as Hw3 by apply Inv_step, Hw2.
  assert (settlements (log w1) = settlements (log w)) as Hs1.
  { rewrite Hl1. by log_norm. }
  destruct (awaiting_single w Hw Hr) as [frame Hf]. rewrite Hf in Ha1. rewrite Ha1 in Ha2.
  assert (failedQueue w3 = [] ∧
          settlements (log w3) =
            settlements (log w2) ++
            map (λ c, (c, outcome_of e)) (callers (failedQueue w2))) as [Hq3 Hs3].
  { subst w3. destruct e as [| | |t|r'| |]; try done.
    - rewrite (step_refresh_ok w2 (inv_jobs w2 Hw2) frame [] t Ha2). cbn.
      split; [done|]. log_norm. unfold callers. by rewrite map_map.
    - rewrite (step_refresh_err w2 (inv_jobs w2 Hw2) frame [] r' Ha2). cbn.
      split; [done|]. log_norm. unfold callers. by rewrite map_map. }
  split_and!; try done.
  - exists (callers more). rewrite Hq2. unfold callers in *.
    by rewrite map_app, Hcs, <- app_assoc.
  - by rewrite Hs3, Hs2, Hs1.
  - pose proof (inv_queue w3 Hw3) as H. rewrite Hq3 in H. cbn in H.
    by rewrite app_nil_r in H.
Qed.

Lemma fifo_flush_witness :
  settlements (log (step (run (run Scenario.renewing (failures Scenario.r401 [1; 2]))
                              [Call Scenario.getA])
                         (RefreshOk "T2"))) =
  [(1, Resolved (Some "T2")); (2, Resolved (Some "T2"))].
Proof.
  assert (reachable Scenario.renewing) as Hreach.
  { exists [StoreAction (AuthSlice.loginUser_fulfilled "T1");
            Call Scenario.getA; Call Scenario.getB; Call Scenario.getC;
            ResponseErr 0 (Some Scenario.r401)].
    vm_compute. reflexivity. }
  assert (NoDup [1; 2]) as Hnd.
  { apply (bool_decide_unpack (NoDup [1; 2])). vm_compute. exact I. }
  assert (Forall (unmarked Scenario.renewing) [1; 2]) as Hun.
  { repeat constructor; eexists; split; vm_compute; reflexivity. }
  assert (Forall (λ e, settles_renewal e = false) [Call Scenario.getA]) as Hes.
  { repeat constructor. }
  destruct (fifo_flush Scenario.renewing Scenario.r401 [1; 2] [Call Scenario.getA]
              (RefreshOk "T2") Hreach eq_refl eq_refl Hnd Hun Hes eq_refl)
    as (_ & _ & H & _).
  rewrite H. vm_compute. reflexivity.
Defined.

(** C4, as the code has it.  When the renewal call in flight fails: the
    flag is reset with nobody left suspended or queued; every queued
    continuation is rejected with the error of the renewal call, and
    the initiator and every queued caller receive that error; nothing
    is resent and no renewal is started; and the logout thunk is
    started once, however many callers were queued.  The credential is
    not cleared by the failure: the only action that has reached the
    store is the pending action of the logout thunk, which keeps the
    token, the user and the authenticated flag.  They are cleared when
    the logout request that was started settles, whatever its outcome,
    and no further logout is started. *)
Theorem renewal_failure (w : World) (r : option AxiosResponse)
    (o : AuthSlice.FetchOutcome) :
  reachable w → isRefreshing w = true →
  let refreshError := mkError refreshRequest r in
  let w' := step w (RefreshErr r) in
  let w'' := step w' (LogoutSettled o) in
  isRefreshing w' = false ∧ awaiting w' = [] ∧ failedQueue w' = [] ∧
  settlements (log w') =
    settlements (log w) ++ map (λ p, (caller p, Rejected refreshError)) (failedQueue w) ∧
  rejections (log w') =
    rejections (log w) ++ map (λ p, (caller p, refreshError)) (awaiting w ++ failedQueue w) ∧
  logouts (log w') = S (logouts (log w)) ∧
  sends (log w') = sends (log w) ∧
  renewals (log w') = renewals (log w) ∧
  store w' = AuthSlice.reducer (store w) AuthSlice.logoutUser_pending ∧
  AuthSlice.selectAccessToken (store w') = AuthSlice.selectAccessToken (store w) ∧
  AuthSlice.user (store w') = AuthSlice.user (store w) ∧
  AuthSlice.isAuthenticated (store w') = AuthSlice.isAuthenticated (store w) ∧
  store w'' = AuthSlice.reducer (store w') (AuthSlice.logoutUser o) ∧
  AuthSlice.cleared (store w'') ∧
  logouts (log w'') = logouts (log w').
Proof.
  intros Hreach Hr refreshError w' w''.
  pose proof (reachable_Inv w Hreach) as Hw.
  destruct (awaiting_single w Hw Hr) as [frame Hf].
  assert (Inv w') as Hw' by apply Inv_step, Hw.
  assert (w'' = dispatch (AuthSlice.logoutUser o) w') as Hw''.
  { subst w''. unfold step, handle. apply drain_idle. cbn. apply Hw'. }
  rewrite Hw''. clear Hw''. cbn [dispatch set_store store log].
  split_and!; try apply reducer_logout_cleared; try done; clear Hw'; subst w';
    rewrite (step_refresh_err w (inv_jobs w Hw) frame [] r Hf); cbn zeta;
    rewrite ?Hf; cbn [store isRefreshing awaiting failedQueue log]; try done.
  - by log_norm.
  - by log_norm.
  - log_norm. lia.
  - by log_norm.
  - by log_norm.
Qed.

Lemma renewal_failure_witness :
  logouts (log (step Scenario.threeFailed (RefreshErr (Some Scenario.r403)))) = 1 ∧
  rejections (log (step Scenario.threeFailed (RefreshErr (Some Scenario.r403)))) =
    [(0, mkError refreshRequest (Some Scenario.r403));
     (1, mkError refreshRequest (Some Scenario.r403));
     (2, mkError refreshRequest (Some Scenario.r403))].
Proof.
  assert (reachable Scenario.threeFailed) as Hreach.
  { exists [StoreAction (AuthSlice.loginUser_fulfilled "T1");
            Call Scenario.getA; Call Scenario.getB; Call Scenario.getC;
            ResponseErr 0 (Some Scenario.r401); ResponseErr 1 (Some Scenario.r401);
            ResponseErr 2 (Some Scenario.r401)].
    vm_compute. reflexivity. }
  destruct (renewal_failure Scenario.threeFailed (Some Scenario.r403)
              (AuthSlice.FetchThrows "Failed to fetch") Hreach eq_refl)
    as (_ & _ & _ & _ & H1 & H2 & _).
  rewrite H1, H2. vm_compute. split; reflexivity.
Defined.

(** C4, as the specification states it, fails.  The three requests of
    the run failed authentication and the renewal call is rejected: the
    flag is reset and the logout thunk is started once, but the
    credential is not cleared.  The store still holds it, and the next
    request is sent with it. *)
Lemma renewal_failure_keeps_credential :
  let w := Scenario.threeFailed in
  let w' := step w (RefreshErr (Some Scenario.r403)) in
  isRefreshing w = true ∧
  isRefreshing w' = false ∧
  logouts (log w') = S (logouts (log w)) ∧
  AuthSlice.selectAccessToken (store w') = Some "T1" ∧
  ¬ AuthSlice.cleared (store w') ∧
  sends (log (step w' (Call Scenario.getA))) =
    sends (log w') ++ [(3, setAuthorization "Bearer T1" Scenario.getA)].
Proof.
  split_and!.
  - vm_compute. reflexivity.
  - vm_compute. reflexivity.
  - vm_compute. reflexivity.
  - vm_compute. reflexivity.
  - intros [H _]. vm_compute in H. discriminate H.
  - vm_compute. reflexivity.
Qed.

(** C5, as the code has it.  A failure of a request whose retry marker
    is set goes to the caller as it is, whatever its status: no renewal
    call is made, nothing is queued, and the error delivered is the
    error received.  The session invalidator is not invoked: the logout
    thunk is not started and the store is left as it was. *)
Theorem after_retry_failure (w : World) (c : nat) (sent : RequestConfig)
    (r : option AxiosResponse) :
  reachable w → inflight w !! c = Some sent →
  truthy_flag (_retry sent) = true →
  let w' := step w (ResponseErr c r) in
  log w' = log w ++ [Thrown c (mkError sent r)] ∧
  renewals (log w') = renewals (log w) ∧
  pushes (log w') = pushes (log w) ∧
  logouts (log w') = logouts (log w) ∧
  store w' = store w ∧ isRefreshing w' = isRefreshing w ∧
  failedQueue w' = failedQueue w ∧ awaiting w' = awaiting w.
Proof.
  intros Hreach Hc Hm w'.
  pose proof (reachable_Inv w Hreach) as Hw.
  subst w'. rewrite (step_pass w (inv_jobs w Hw) c r sent Hc).
  - cbn. split_and!; try done; by log_norm.
  - rewrite Hm. cbn. apply andb_false_r.
Qed.

Lemma after_retry_failure_witness :
  log (step Scenario.retried (ResponseErr 0 (Some Scenario.r401))) =
  log Scenario.retried ++
  [Thrown 0 (mkError (setAuthorization "Bearer T2"
                        (markRetry (requestInterceptor (store Scenario.loggedIn) Scenario.getA)))
                     (Some Scenario.r401))].
Proof.
  assert (reachable Scenario.retried) as Hreach.
  { exists [StoreAction (AuthSlice.loginUser_fulfilled "T1");
            Call Scenario.getA; Call Scenario.getB; Call Scenario.getC;
            ResponseErr 0 (Some Scenario.r401); RefreshOk "T2"].
    vm_compute. reflexivity. }
  assert (inflight Scenario.retried !! 0 =
          Some (setAuthorization "Bearer T2"
                  (markRetry (requestInterceptor (store Scenario.loggedIn) Scenario.getA))))
    as Hc.
  { vm_compute. reflexivity. }
  destruct (after_retry_failure Scenario.retried 0 _ (Some Scenario.r401)
              Hreach Hc eq_refl) as (H & _).
  exact H.
Defined.

(** C5, as the specification states it, fails.  The first request of
    the run was retried after a renewal, carries the retry marker and is
    answered 401 again: the session invalidator does not run. *)
Lemma after_retry_no_invalidation :
  let w := Scenario.retried in
  let w' := step w (ResponseErr 0 (Some Scenario.r401)) in
  (∃ sent, inflight w !! 0 = Some sent ∧ truthy_flag (_retry sent) = true ∧
           is401 (mkError sent (Some Scenario.r401)) = true) ∧
  ¬ invalidated w w'.
Proof.
  split.
  - eexists. split_and!; vm_compute; reflexivity.
  - intros [H|H]; vm_compute in H; [lia | discriminate H].
Qed.

(** C6 (pass-through).  A response that is not an authentication
    failure goes to the caller as it is: a success is returned, and a
    failure with a status other than 401 or with no response at all is
    rejected with that same error.  The request is not sent again, and
    the store, the flag, the queue and the suspended call are left
    untouched. *)
Theorem pass_through (w : World) (c : nat) (sent : RequestConfig)
    (r : option AxiosResponse) (ok : AxiosResponse) :
  reachable w → inflight w !! c = Some sent →
  (∀ resp, r = Some resp → status resp ≠ 401) →
  let w' := step w (ResponseErr c r) in
  let w'' := step w (ResponseOk c ok) in
  (log w' = log w ++ [Thrown c (mkError sent r)] ∧
   store w' = store w ∧ isRefreshing w' = isRefreshing w ∧
   failedQueue w' = failedQueue w ∧ awaiting w' = awaiting w ∧
   inflight w' !! c = None) ∧
  (log w'' = log w ++ [Returned c ok] ∧
   store w'' = store w ∧ isRefreshing w'' = isRefreshing w ∧
   failedQueue w'' = failedQueue w ∧ awaiting w'' = awaiting w ∧
   inflight w'' !! c = None).
Proof.
  intros Hreach Hc Hne w' w''.
  pose proof (reachable_Inv w Hreach) as Hw.
  split.
  - subst w'. rewrite (step_pass w (inv_jobs w Hw) c r sent Hc).
    + cbn. split_and!; try done. apply lookup_delete_eq.
    + unfold is401. cbn. destruct r as [resp|]; [|done].
      specialize (Hne resp eq_refl). apply Nat.eqb_neq in Hne. by rewrite Hne.
  - subst w''. unfold step, handle. rewrite Hc.
    rewrite drain_idle by apply Hw.
    cbn. split_and!; try done. apply lookup_delete_eq.
Qed.

Lemma pass_through_witness :
  log (step Scenario.threeSent (ResponseErr 1 (Some Scenario.r500))) =
  log Scenario.threeSent ++
  [Thrown 1 (mkError (requestInterceptor (store Scenario.loggedIn) Scenario.getB)
                     (Some Scenario.r500))].
Proof.
  assert (reachable Scenario.threeSent) as Hreach.
  { exists [StoreAction (AuthSlice.loginUser_fulfilled "T1");
            Call Scenario.getA; Call Scenario.getB; Call Scenario.getC].
    vm_compute. reflexivity. }
  assert (inflight Scenario.threeSent !! 1 =
          Some (requestInterceptor (store Scenario.loggedIn) Scenario.getB)) as Hc.
  { vm_compute. reflexivity. }
  assert (∀ resp, Some Scenario.r500 = Some resp → status resp ≠ 401) as Hne.
  { intros resp [= <-]. cbn. lia. }
  destruct (pass_through Scenario.threeSent 1 _ (Some Scenario.r500) Scenario.r200
              Hreach Hc Hne) as ((H & _) & _).
  exact H.
Defined.

(** C7 (renewal success).  When the renewal call in flight answers with
    the access token [T2]: the store holds [T2]; the flag is reset with
    nobody left suspended or queued; and the request of the initiator
    and then those of the queued callers, in their order, are each
    handed to the transport once, unchanged but for the header
    [Authorization: Bearer T2].  The waiting callers are pairwise
    distinct, so none has its request sent twice.  No renewal call is
    made in that turn. *)
Theorem renewal_success (w : World) (T2 : string) :
  reachable w → isRefreshing w = true →
  let w' := step w (RefreshOk T2) in
  let resent p := (caller p, setAuthorization ("Bearer " +:+ T2) (originalRequest p)) in
  AuthSlice.selectAccessToken (store w') = Some T2 ∧
  isRefreshing w' = false ∧ awaiting w' = [] ∧ failedQueue w' = [] ∧
  sends (log w') = sends (log w) ++ map resent (awaiting w ++ failedQueue w) ∧
  NoDup (callers (awaiting w ++ failedQueue w)) ∧
  (∀ p, headers (resent p).2 !! "Authorization" = Some ("Bearer " +:+ T2)) ∧
  renewals (log w') = renewals (log w).
Proof.
  intros Hreach Hr w' resent.
  pose proof (reachable_Inv w Hreach) as Hw.
  pose proof (wf_nodup w (reachable_Wf w Hreach)) as Hnd.
  unfold callers in Hnd. rewrite <- map_app in Hnd.
  destruct (awaiting_single w Hw Hr) as [frame Hf].
  subst w'. rewrite (step_refresh_ok w (inv_jobs w Hw) frame [] T2 Hf). cbn zeta.
  rewrite Hf. cbn [store isRefreshing awaiting failedQueue log].
  split_and!; try done.
  - log_norm. f_equal. f_equal.
    + unfold resent. f_equal. by apply requestInterceptor_renewed.
    + apply map_ext. intros p. unfold resent. f_equal.
      by apply requestInterceptor_renewed.
  - by rewrite Hf in Hnd.
  - intros p. unfold resent, setAuthorization. cbn. apply lookup_insert_eq.
  - by log_norm.
Qed.

Lemma renewal_success_witness :
  sends (log (step Scenario.threeFailed (RefreshOk "T2"))) =
  sends (log Scenario.threeFailed) ++
  [(0, setAuthorization "Bearer T2"
         (markRetry (requestInterceptor (store Scenario.loggedIn) Scenario.getA)));
   (1, setAuthorization "Bearer T2"
         (requestInterceptor (store Scenario.loggedIn) Scenario.getB));
   (2, setAuthorization "Bearer T2"
         (requestInterceptor (store Scenario.loggedIn) Scenario.getC))].
Proof.
  assert (reachable Scenario.threeFailed) as Hreach.
  { exists [StoreAction (AuthSlice.loginUser_fulfilled "T1");
            Call Scenario.getA; Call Scenario.getB; Call Scenario.getC;
            ResponseErr 0 (Some Scenario.r401); ResponseErr 1 (Some Scenario.r401);
            ResponseErr 2 (Some Scenario.r401)].
    vm_compute. reflexivity. }
  destruct (renewal_success Scenario.threeFailed "T2" Hreach eq_refl)
    as (_ & _ & _ & _ & H & _).
  rewrite H. vm_compute. reflexivity.
Defined.

(** C8 (request authorization).  A request that the application hands
    to the client reaches the transport as the request interceptor
    leaves it.  If the store holds a credential (a non-empty token, the
    test of the source), that is the request with the header
    [Authorization: Bearer <token>]; if the store holds none, it is the
    request unchanged, and nothing fails.  In particular, once a failed
    renewal has led to the logout and the logout request has settled,
    the store holds no credential and a request is handed over
    unchanged, so without an Authorization header if it had none. *)
Theorem request_authorization (w : World) (config : RequestConfig) :
  reachable w →
  let sent := requestInterceptor (store w) config in
  sends (log (step w (Call config))) = sends (log w) ++ [(nextId w, sent)] ∧
  (∀ token, AuthSlice.selectAccessToken (store w) = Some token → token ≠ "" →
     sent = setAuthorization ("Bearer " +:+ token) config ∧
     headers sent !! "Authorization" = Some ("Bearer " +:+ token)) ∧
  (AuthSlice.selectAccessToken (store w) = None → sent = config) ∧
  (∀ r o, isRefreshing w = true →
     let w' := run w [RefreshErr r; LogoutSettled o] in
     AuthSlice.selectAccessToken (store w') = None ∧
     sends (log (step w' (Call config))) = sends (log w') ++ [(nextId w', config)] ∧
     (headers config !! "Authorization" = None →
      ∀ c sent', (c, sent') ∈ sends (log (step w' (Call config))) →
                 (c, sent') ∉ sends (log w') →
                 headers sent' !! "Authorization" = None)).
Proof.
  intros Hreach sent.
  assert (∀ w0, reachable w0 →
            sends (log (step w0 (Call config))) =
            sends (log w0) ++ [(nextId w0, requestInterceptor (store w0) config)]) as Hcall.
  { intros w0 H0. pose proof (reachable_Inv w0 H0) as Hw0.
    unfold step, handle, apiClient. rewrite drain_idle by apply Hw0.
    cbn. by log_norm. }
  split_and!.
  - by apply Hcall.
  - intros token Ht Hne. subst sent. unfold requestInterceptor. rewrite Ht.
    cbn. apply String.eqb_neq in Hne. rewrite Hne. cbn.
    split; [done|]. apply lookup_insert_eq.
  - intros Ht. subst sent. unfold requestInterceptor. by rewrite Ht.
  - intros r o Hr w'.
    assert (reachable w') as Hreach' by by apply reachable_run.
    assert (AuthSlice.selectAccessToken (store w') = None) as Hnone.
    { subst w'. cbn [run foldl]. unfold step at 1. rewrite store_drain.
      cbn [handle dispatch set_store store].
      apply (reducer_logout_cleared _ o). }
    assert (sends (log (step w' (Call config))) =
            sends (log w') ++ [(nextId w', config)]) as Hsent.
    { rewrite (Hcall w' Hreach'). unfold requestInterceptor. by rewrite Hnone. }
    split_and!; try done.
    intros Hh c sent' Hin Hnin. rewrite Hsent in Hin.
    apply elem_of_app in Hin as [Hin|Hin]; [done|].
    apply list_elem_of_singleton in Hin. by injection Hin as -> ->.
Qed.

Lemma request_authorization_witness :
  sends (log (step Scenario.loggedIn (Call Scenario.getA))) =
    [(0, setAuthorization "Bearer T1" Scenario.getA)] ∧
  sends (log (step init (Call Scenario.getA))) = [(0, Scenario.getA)].
Proof.
  assert (reachable Scenario.loggedIn) as Hreach.
  { exists [StoreAction (AuthSlice.loginUser_fulfilled "T1")]. vm_compute. reflexivity. }
  assert (reachable init) as Hinit.
  { exists []. reflexivity. }
  destruct (request_authorization Scenario.loggedIn Scenario.getA Hreach)
    as (H1 & H2 & _).
  destruct (H2 "T1" eq_refl) as (H3 & _); [discriminate|].
  destruct (request_authorization init Scenario.getA Hinit) as (H4 & _ & H5 & _).
  specialize (H5 eq_refl).
  split.
  - rewrite H1, H3. vm_compute. reflexivity.
  - rewrite H4, H5. vm_compute. reflexivity.
Defined.

(** C9 (queue lifecycle).  In every state of the module, the
    continuations pushed on the queue so far are, in order, those
    settled so far followed by those still queued: each push is matched
    by one settlement and none is settled twice.  When the renewal in
    flight settles, either way, the queue is emptied, nothing pushed is
    left unsettled, the flag is reset and no call is left suspended.
    From any state with the flag reset, a burst of first authentication
    failures starts a renewal of its own: one more renewal call, its
    first request the initiator, the others queued alone. *)
Theorem queue_lifecycle (w : World) (e : Event) (w3 : World) (r : AxiosResponse)
    (c : nat) (cs : list nat) :
  reachable w → isRefreshing w = true → settles_renewal e = true →
  reachable w3 → isRefreshing w3 = false →
  status r = 401 → NoDup (c :: cs) → Forall (unmarked w3) (c :: cs) →
  let w1 := step w e in
  let w4 := run w3 (failures r (c :: cs)) in
  pushes (log w) = (settlements (log w)).*1 ++ callers (failedQueue w) ∧
  (settlements (log w1)).*1 = (settlements (log w)).*1 ++ callers (failedQueue w) ∧
  pushes (log w1) = (settlements (log w1)).*1 ∧
  failedQueue w1 = [] ∧ isRefreshing w1 = false ∧ awaiting w1 = [] ∧
  failedQueue w3 = [] ∧ awaiting w3 = [] ∧
  renewals (log w4) = S (renewals (log w3)) ∧
  isRefreshing w4 = true ∧
  callers (awaiting w4) = [c] ∧
  callers (failedQueue w4) = cs.
Proof.
  intros Hreach Hr He Hreach3 Hidle3 Hs Hnd Hun w1 w4.
  pose proof (reachable_Inv w Hreach) as Hw.
  pose proof (reachable_Inv w3 Hreach3) as Hw3.
  assert (Inv w1) as Hw1 by apply Inv_step, Hw.
  destruct (awaiting_single w Hw Hr) as [frame Hf].
  assert (failedQueue w1 = [] ∧ isRefreshing w1 = false ∧ awaiting w1 = []) as (Hq1 & Hr1 & Ha1).
  { subst w1. destruct e as [| | |t|r'| |]; try done.
    - by rewrite (step_refresh_ok w (inv_jobs w Hw) frame [] t Hf).
    - by rewrite (step_refresh_err w (inv_jobs w Hw) frame [] r' Hf). }
  pose proof (inv_queue w Hw) as Hpq.
  pose proof (inv_queue w1 Hw1) as Hpq1. rewrite Hq1 in Hpq1. cbn in Hpq1.
  rewrite app_nil_r in Hpq1.
  assert (pushes (log w1) = pushes (log w)) as Hp1.
  { subst w1. destruct e as [| | |t|r'| |]; try done.
    - rewrite (step_refresh_ok w (inv_jobs w Hw) frame [] t Hf). cbn. by log_norm.
    - rewrite (step_refresh_err w (inv_jobs w Hw) frame [] r' Hf). cbn. by log_norm. }
  destruct (burst_idle r c cs w3 Hw3 Hidle3 Hs Hnd Hun)
    as (_ & _ & Hr4 & Ha4 & Hq4 & Hl4).
  fold w4 in Hr4, Ha4, Hq4, Hl4.
  split_and!; try done.
  - by rewrite <- Hpq1, Hp1.
  - by apply (inv_idle w3 Hw3).
  - pose proof (inv_single w3 Hw3) as H. rewrite Hidle3 in H. by apply nil_length_inv.
  - rewrite Hl4. log_norm. lia.
  - rewrite Hq4. apply waiters_callers. by apply Forall_cons in Hun as [_ ?].
Qed.

Lemma queue_lifecycle_witness :
  renewals (log (run Scenario.laterSent (failures Scenario.r401 [3; 4]))) = 2 ∧
  callers (awaiting (run Scenario.laterSent (failures Scenario.r401 [3; 4]))) = [3] ∧
  callers (failedQueue (run Scenario.laterSent (failures Scenario.r401 [3; 4]))) = [4].
Proof.
  assert (reachable Scenario.threeFailed) as Hreach.
  { exists [StoreAction (AuthSlice.loginUser_fulfilled "T1");
            Call Scenario.getA; Call Scenario.getB; Call Scenario.getC;
            ResponseErr 0 (Some Scenario.r401); ResponseErr 1 (Some Scenario.r401);
            ResponseErr 2 (Some Scenario.r401)].
    vm_compute. reflexivity. }
  assert (reachable Scenario.laterSent) as Hreach3.
  { by apply reachable_run. }
  assert (NoDup [3; 4]) as Hnd.
  { apply (bool_decide_unpack (NoDup [3; 4])). vm_compute. exact I. }
  assert (Forall (unmarked Scenario.laterSent) [3; 4]) as Hun.
  { repeat constructor; eexists; split; vm_compute; reflexivity. }
  destruct (queue_lifecycle Scenario.threeFailed (RefreshOk "T2") Scenario.laterSent
              Scenario.r401 3 [4] Hreach eq_refl eq_refl Hreach3 eq_refl eq_refl Hnd Hun)
    as (_ & _ & _ & _ & _ & _ & _ & _ & H1 & _ & H2 & H3).
  rewrite H1, H2, H3. vm_compute. split_and!; reflexivity.
Defined.

(** C10 (invalidation robustness).  The logout thunk ends in its
    fulfilled or in its rejected action, whatever its request does, and
    the reducer of either clears the local auth state: no access token,
    no user, not authenticated.  So the store is cleared in the turn in
    which the logout request settles, in particular when the logout was
    started by a failed renewal. *)
Theorem logout_clears_auth_state (state : AuthSlice.AuthState)
    (o : AuthSlice.FetchOutcome) (payload : string) (w : World)
    (r : option AxiosResponse) :
  AuthSlice.cleared (AuthSlice.reducer state AuthSlice.logoutUser_fulfilled) ∧
  AuthSlice.cleared (AuthSlice.reducer state (AuthSlice.logoutUser_rejected payload)) ∧
  (AuthSlice.logoutUser o = AuthSlice.logoutUser_fulfilled ∨
   ∃ p, AuthSlice.logoutUser o = AuthSlice.logoutUser_rejected p) ∧
  store (step w (LogoutSettled o)) = AuthSlice.reducer (store w) (AuthSlice.logoutUser o) ∧
  AuthSlice.cleared (store (step w (LogoutSettled o))) ∧
  AuthSlice.cleared (store (run w [RefreshErr r; LogoutSettled o])).
Proof.
  assert (∀ w0, store (step w0 (LogoutSettled o)) =
                AuthSlice.reducer (store w0) (AuthSlice.logoutUser o)) as Hs.
  { intros w0. unfold step. by rewrite store_drain. }
  split_and!; try done.
  - destruct o as [m|[|] [m|d]]; cbn; eauto.
  - rewrite Hs. apply reducer_logout_cleared.
  - cbn [run foldl]. rewrite Hs. apply reducer_logout_cleared.
Qed.

(** * Properties of the rest of the auth code *)

(** ** The auth slice *)

Lemma or_else_not_empty v dflt : dflt ≠ "" → or_else v dflt ≠ "".
Proof.
  intros Hd. unfold or_else. destruct v as [s|]; [|done].
  destruct (String.eqb s "") eqn:Hs; [done|]. by apply String.eqb_neq.
Qed.

Lemma reduce_app state l1 l2 :
  AuthThunks.reduce state (l1 ++ l2) = AuthThunks.reduce (AuthThunks.reduce state l1) l2.
Proof. unfold AuthThunks.reduce. apply foldl_app. Qed.

(** X1.  Whatever actions reach the store from its initial state, the
    session counts as authenticated exactly when a user object is
    held, and never while the status is [idle]. *)
Theorem authenticated_iff_user (actions : list AuthSlice.Action) :
  let state := AuthThunks.reduce AuthSlice.initialState actions in
  (AuthSlice.isAuthenticated state = true ↔ is_Some (AuthSlice.user state)) ∧
  (AuthSlice.status state = AuthSlice.idle → AuthSlice.isAuthenticated state = false).
Proof.
  induction actions as [|a actions IH] using rev_ind.
  - cbn. split; [|done]. split; [done|]. intros [u Hu]. done.
  - cbn zeta in *. rewrite reduce_app. cbn.
    destruct IH as [IH1 IH2].
    set (state := AuthThunks.reduce AuthSlice.initialState actions) in *.
    destruct a; cbn; try done;
      (split; [split; [done|]; try (by intros [u Hu]); eauto | done]).
Qed.

(** The thunk of [fetchUser] ends fulfilled with the user of the body or
    rejected with a message that is not empty. *)
Lemma fetchUser_cases (me : Fetch.Result AuthSlice.User) :
  (∃ user, AuthThunks.fetchUser me = AuthSlice.fetchUser_fulfilled user) ∨
  (∃ payload, AuthThunks.fetchUser me = AuthSlice.fetchUser_rejected payload ∧
              payload ≠ "").
Proof.
  unfold AuthThunks.fetchUser.
  destruct me as [message|response].
  { right. eexists. split; [done|]. by apply or_else_not_empty. }
  destruct (Fetch.ok response); cbn [negb].
  - destruct (Fetch.json response) as [message|data]; [|by eauto].
    right. eexists. split; [done|]. by apply or_else_not_empty.
  - destruct (Nat.eqb (Fetch.status response) 401); [by eauto|].
    destruct (Fetch.json response) as [message|errorData];
      right; eexists; (split; [done|]); by apply or_else_not_empty.
Qed.

(** The thunk of [fetchUser] is fulfilled exactly on an ok response with
    a parsed body. *)
Lemma fetchUser_outcome (me : Fetch.Result AuthSlice.User) :
  (∃ response value,
     me = Fetch.Responds response ∧ Fetch.ok response = true ∧
     Fetch.json response = Fetch.JsonParsed value) ∨
  ((∀ response value,
      me = Fetch.Responds response → Fetch.ok response = true →
      Fetch.json response ≠ Fetch.JsonParsed value) ∧
   ∃ payload, AuthThunks.fetchUser me = AuthSlice.fetchUser_rejected payload ∧
              payload ≠ "").
Proof.
  unfold AuthThunks.fetchUser.
  destruct me as [message|response].
  { right. split; [done|]. eexists. split; [done|]. by apply or_else_not_empty. }
  destruct (Fetch.ok response) eqn:Hok; cbn [negb].
  - destruct (Fetch.json response) as [message|data] eqn:Hjson.
    + right. split; [intros ?? [= <-] _; congruence|].
      eexists. split; [done|]. by apply or_else_not_empty.
    + left. by exists response, data.
  - right. split; [intros ?? [= <-]; congruence|].
    destruct (Nat.eqb (Fetch.status response) 401); [by eauto|].
    destruct (Fetch.json response) as [message|errorData];
      eexists; (split; [done|]); by apply or_else_not_empty.
Qed.

(** X2.  Fetching the user, from the pending action to the settled one,
    never touches the access token.  A body parsed from an ok response
    authenticates the session with that user and no error; a 401
    leaves the session unauthenticated with no error message at all;
    and every failure, that is every outcome other than an ok response
    with a parsed body, leaves it unauthenticated, without a user, with
    status [failed] and with an error message, if any, that is neither
    empty nor "Not authenticated". *)
Theorem fetchUser_lifecycle (state : AuthSlice.AuthState)
    (me : Fetch.Result AuthSlice.User) :
  let state' := AuthThunks.reduce state (AuthThunks.dispatch_fetchUser me) in
  AuthSlice.accessToken state' = AuthSlice.accessToken state ∧
  (∀ response detail user,
     me = Fetch.Responds response → Fetch.ok response = true →
     Fetch.json response = Fetch.JsonParsed (Fetch.mkJson detail user) →
     state' = AuthSlice.mkAuthState true (Some user) (AuthSlice.accessToken state)
                                    AuthSlice.succeeded None) ∧
  (∀ response,
     me = Fetch.Responds response → Fetch.status response = 401 →
     state' = AuthSlice.mkAuthState false None (AuthSlice.accessToken state)
                                    AuthSlice.failed None) ∧
  ((∀ response value,
      me = Fetch.Responds response → Fetch.ok response = true →
      Fetch.json response ≠ Fetch.JsonParsed value) →
     AuthSlice.isAuthenticated state' = false ∧
     AuthSlice.status state' = AuthSlice.failed ∧ AuthSlice.user state' = None ∧
     ∀ message, AuthSlice.error state' = Some message →
                message ≠ "" ∧ message ≠ "Not authenticated") ∧
  (AuthSlice.isAuthenticated state' = true ↔
   ∃ response value,
     me = Fetch.Responds response ∧ Fetch.ok response = true ∧
     Fetch.json response = Fetch.JsonParsed value).
Proof.
  assert (∀ payload,
            payload ≠ "" →
            let state' := AuthSlice.reducer (AuthSlice.reducer state AuthSlice.fetchUser_pending)
                            (AuthSlice.fetchUser_rejected payload) in
            AuthSlice.isAuthenticated state' = false ∧
            AuthSlice.status state' = AuthSlice.failed ∧ AuthSlice.user state' = None ∧
            ∀ message, AuthSlice.error state' = Some message →
                       message ≠ "" ∧ message ≠ "Not authenticated") as Hrej.
  { intros payload Hne. cbn. split_and!; try done.
    destruct (String.eqb payload "Not authenticated") eqn:He; [done|].
    intros message [= <-]. split; [done|]. by apply String.eqb_neq. }
  cbn zeta. unfold AuthThunks.dispatch_fetchUser, AuthThunks.reduce. cbn [foldl].
  split_and!.
  - by destruct (fetchUser_cases me) as [[u ->]|[p [-> _]]].
  - intros response detail user -> Hok Hjson. cbn. by rewrite Hok, Hjson.
  - intros response -> Hst. cbn. unfold Fetch.ok. rewrite Hst. done.
  - intros Hfail. destruct (fetchUser_outcome me) as [(response & value & -> & Hok & Hjson)|[_ Hrj]].
    + by destruct (Hfail response value eq_refl Hok).
    + destruct Hrj as [p [-> Hp]]. by apply Hrej.
  - destruct (fetchUser_outcome me) as [(response & value & -> & Hok & Hjson)|[Hno [p [-> Hp]]]].
    + cbn. rewrite Hok, Hjson. cbn. split; [|done]. intros _. by exists response, value.
    + split; [by cbn|]. intros (response & value & Hme & Hok & Hjson).
      by destruct (Hno response value Hme Hok).
Qed.

(** The thunk of [loginUser] is rejected before it fetches the user, or
    fetches the user and is fulfilled with the token, or, on an ok
    response with a [null] body, fetches the user and is rejected; a
    rejection message is never empty. *)
Lemma loginUser_cases (login : Fetch.Result AuthThunks.LoginBody)
    (me : Fetch.Result AuthSlice.User) :
  (∃ payload, AuthThunks.dispatch_loginUser login me =
              [AuthSlice.loginUser_pending; AuthSlice.loginUser_rejected payload] ∧
              payload ≠ "" ∧
              ∀ response value typeError,
                login = Fetch.Responds response → Fetch.ok response = true →
                Fetch.json response = Fetch.JsonParsed value →
                Fetch.data value ≠ AuthThunks.LoginNull typeError) ∨
  (∃ token, AuthThunks.dispatch_loginUser login me =
            [AuthSlice.loginUser_pending; AuthSlice.fetchUser_pending;
             AuthThunks.fetchUser me; AuthSlice.loginUser_fulfilled token]) ∨
  (∃ payload response value typeError,
     AuthThunks.dispatch_loginUser login me =
       [AuthSlice.loginUser_pending; AuthSlice.fetchUser_pending;
        AuthThunks.fetchUser me; AuthSlice.loginUser_rejected payload] ∧
     payload ≠ "" ∧
     login = Fetch.Responds response ∧ Fetch.ok response = true ∧
     Fetch.json response = Fetch.JsonParsed value ∧
     Fetch.data value = AuthThunks.LoginNull typeError).
Proof.
  unfold AuthThunks.dispatch_loginUser.
  destruct login as [message|response].
  { left. eexists. split_and!; [done|by apply or_else_not_empty|done]. }
  destruct (Fetch.ok response) eqn:Hok; cbn [negb];
    destruct (Fetch.json response) as [message|data] eqn:Hjson.
  - left. eexists. split_and!; [done|by apply or_else_not_empty|].
    intros ??? [= <-] _ ?. congruence.
  - destruct (Fetch.data data) as [typeError|token] eqn:Hdata.
    + right. right. exists (or_else (Some typeError) "Network error"), response, data, typeError.
      split_and!; try done. by apply or_else_not_empty.
    + right. left. by exists token.
  - left. eexists. split_and!; [done|by apply or_else_not_empty|].
    intros ??? [= <-] ?. congruence.
  - left. destruct (Fetch.data data) as [typeError|token];
      eexists; (split_and!; [done|by apply or_else_not_empty|]);
      intros ??? [= <-] ?; congruence.
Qed.

Lemma logoutUser_cases (o : AuthSlice.FetchOutcome) :
  AuthSlice.logoutUser o = AuthSlice.logoutUser_fulfilled ∨
  (∃ payload, AuthSlice.logoutUser o = AuthSlice.logoutUser_rejected payload ∧
              payload ≠ "").
Proof.
  destruct o as [message|[|] [message|detail]]; try (by left);
    right; eexists; (split; [done|]); by apply or_else_not_empty.
Qed.

(** X3.  Submitting the login form ends in the fulfilled or in the
    rejected action of the login thunk.  When fulfilled, the token of
    the login response is stored and the status is [succeeded]
    whatever became of the user fetch, and the session is authenticated
    exactly when that fetch was fulfilled, in which case the page
    navigates to "/".  When rejected, the state is fully determined:
    unauthenticated, no user, no token, status [failed], and the
    rejection message, never empty, as the error; this also when the
    user fetch had run and authenticated the session.  The user fetch
    was dispatched before a rejection in one case only: the response
    was ok and its body was [null]. *)
Theorem login_submit (state : AuthSlice.AuthState)
    (login : Fetch.Result AuthThunks.LoginBody) (me : Fetch.Result AuthSlice.User) :
  let actions := LoginPage.handleSubmit login me in
  let state' := AuthThunks.reduce state actions in
  match last actions with
  | Some (AuthSlice.loginUser_fulfilled token) =>
      AuthSlice.accessToken state' = Some token ∧
      AuthSlice.status state' = AuthSlice.succeeded ∧
      (AuthSlice.isAuthenticated state' = true ↔
       ∃ user, AuthThunks.fetchUser me = AuthSlice.fetchUser_fulfilled user) ∧
      (AuthSlice.isAuthenticated state' = true →
       LoginPage.effect (AuthSlice.isAuthenticated state') =
       [LoginPage.Push "/"; LoginPage.Dispatch AuthSlice.clearAuthError])
  | Some (AuthSlice.loginUser_rejected message) =>
      message ≠ "" ∧
      state' = AuthSlice.mkAuthState false None None AuthSlice.failed (Some message) ∧
      (AuthSlice.fetchUser_pending ∈ actions ↔
       ∃ response value typeError,
         login = Fetch.Responds response ∧ Fetch.ok response = true ∧
         Fetch.json response = Fetch.JsonParsed value ∧
         Fetch.data value = AuthThunks.LoginNull typeError)
  | _ => False
  end.
Proof.
  cbn zeta. unfold LoginPage.handleSubmit.
  destruct (loginUser_cases login me)
    as [(p & -> & Hp & Hno)|[[token ->]|(p & response & value & typeError & -> & Hp & Hnull)]].
  - cbn. split_and!; try done. split.
    + intros Hin. repeat (apply elem_of_cons in Hin as [Hin|Hin]; [done|]).
      by apply elem_of_nil in Hin.
    + intros (response & value & typeError & Hl & Hok & Hjson & Hdata).
      by destruct (Hno response value typeError Hl Hok Hjson).
  - destruct (fetchUser_cases me) as [[u ->]|[p [-> _]]]; cbn.
    + split_and!; try done. split; [eauto|done].
    + split_and!; try done. split; [done|]. by intros [u Hu].
  - cbn. split_and!; try done.
    split; [intros _; by exists response, value, typeError|].
    intros _. apply elem_of_cons. right. apply elem_of_cons. right.
    apply elem_of_cons. by left.
Qed.

(** The thunk of [registerUser] ends fulfilled or rejected with a
    message that is not empty. *)
Lemma registerUser_cases (o : Fetch.Result AuthSlice.User) :
  AuthThunks.registerUser o = AuthSlice.registerUser_fulfilled ∨
  (∃ payload, AuthThunks.registerUser o = AuthSlice.registerUser_rejected payload ∧
              payload ≠ "").
Proof.
  unfold AuthThunks.registerUser.
  destruct o as [message|response].
  { right. eexists. split; [done|]. by apply or_else_not_empty. }
  destruct (Fetch.ok response); cbn [negb];
    destruct (Fetch.json response) as [message|data]; try (by left);
    right; eexists; (split; [done|]); by apply or_else_not_empty.
Qed.

(** X4.  Submitting the registration form never authenticates: the
    access token, the user and the authenticated flag are what they
    were before.  The page announces the success and navigates to
    "/login" exactly when the thunk is fulfilled, which leaves status
    [succeeded]; otherwise it does nothing more and the store holds
    status [failed] and a non-empty error message. *)
Theorem register_submit (state : AuthSlice.AuthState)
    (o : Fetch.Result AuthSlice.User) :
  let '(actions, commands) := RegisterPage.handleSubmit o in
  let state' := AuthThunks.reduce state actions in
  AuthSlice.isAuthenticated state' = AuthSlice.isAuthenticated state ∧
  AuthSlice.user state' = AuthSlice.user state ∧
  AuthSlice.accessToken state' = AuthSlice.accessToken state ∧
  ((commands = [RegisterPage.Alert "Registration successful! Please login.";
                RegisterPage.Push "/login"] ∧
    AuthSlice.status state' = AuthSlice.succeeded ∧ AuthSlice.error state' = None) ∨
   (commands = [] ∧ AuthSlice.status state' = AuthSlice.failed ∧
    ∃ message, AuthSlice.error state' = Some message ∧ message ≠ "")).
Proof.
  unfold RegisterPage.handleSubmit, AuthThunks.dispatch_registerUser.
  destruct (registerUser_cases o) as [->|[p [-> Hp]]]; cbn.
  - split_and!; try done. by left.
  - split_and!; try done. right. split_and!; try done. by exists p.
Qed.

(** X5.  A thunk that is rejected always carries a message to show: the
    payload of the rejected action of [fetchUser], [loginUser],
    [registerUser] and [logoutUser] is never the empty string, whatever
    the request did. *)
Theorem rejected_payload_not_empty (me : Fetch.Result AuthSlice.User)
    (login : Fetch.Result AuthThunks.LoginBody) (register : Fetch.Result AuthSlice.User)
    (logout : AuthSlice.FetchOutcome) (action : AuthSlice.Action) :
  action = AuthThunks.fetchUser me ∨
  action ∈ AuthThunks.dispatch_loginUser login me ∨
  action = AuthThunks.registerUser register ∨
  action = AuthSlice.logoutUser logout →
  ∀ payload, AuthThunks.rejected_payload action = Some payload → payload ≠ "".
Proof.
  intros [-> | [Hin | [-> | ->] ] ] payload.
  - destruct (fetchUser_cases me) as [[u ->]|[p [-> Hp]]]; [done|]. by intros [= <-].
  - destruct (loginUser_cases login me)
      as [(p & Hl & Hp & _)|[[token Hl]|(p & ? & ? & ? & Hl & Hp & _)]]; rewrite Hl in Hin.
    + apply elem_of_cons in Hin as [->|Hin]; [done|].
      apply list_elem_of_singleton in Hin as ->. by intros [= <-].
    + apply elem_of_cons in Hin as [->|Hin]; [done|].
      apply elem_of_cons in Hin as [->|Hin]; [done|].
      apply elem_of_cons in Hin as [->|Hin].
      * destruct (fetchUser_cases me) as [[u ->]|[p [-> Hp]]]; [done|]. by intros [= <-].
      * by apply list_elem_of_singleton in Hin as ->.
    + apply elem_of_cons in Hin as [->|Hin]; [done|].
      apply elem_of_cons in Hin as [->|Hin]; [done|].
      apply elem_of_cons in Hin as [->|Hin].
      * destruct (fetchUser_cases me) as [[u ->]|[p' [-> Hp']]]; [done|]. by intros [= <-].
      * apply list_elem_of_singleton in Hin as ->. by intros [= <-].
  - destruct (registerUser_cases register) as [->|[p [-> Hp]]]; [done|]. by intros [= <-].
  - destruct (logoutUser_cases logout) as [->|[p [-> Hp]]]; [done|]. by intros [= <-].
Qed.

(** X6.  The slice with the access token extends the slice without it:
    forgetting the token and the user name, every action has in the
    one the effect its counterpart has in the other, [setAccessToken]
    has none, and so the two stores, fed the same actions from their
    initial states, stay in step. *)
Theorem slice_extends_v0 (state : AuthSlice.AuthState) (action : AuthSlice.Action)
    (actions : list AuthSlice.Action) :
  AuthSliceV0.forget AuthSlice.initialState = AuthSliceV0.initialState ∧
  AuthSliceV0.forget (AuthSlice.reducer state action) =
    match AuthSliceV0.forget_action action with
    | Some action0 => AuthSliceV0.reducer (AuthSliceV0.forget state) action0
    | None => AuthSliceV0.forget state
    end ∧
  AuthSliceV0.forget (AuthThunks.reduce AuthSlice.initialState actions) =
    foldl AuthSliceV0.reducer AuthSliceV0.initialState
          (omap AuthSliceV0.forget_action actions).
Proof.
  assert (∀ s a,
            AuthSliceV0.forget (AuthSlice.reducer s a) =
            match AuthSliceV0.forget_action a with
            | Some a0 => AuthSliceV0.reducer (AuthSliceV0.forget s) a0
            | None => AuthSliceV0.forget s
            end) as Hstep.
  { intros s a. by destruct a. }
  split_and!; [done | apply Hstep |].
  induction actions as [|a actions IH] using rev_ind; [done|].
  rewrite reduce_app, omap_app, foldl_app. cbn. rewrite Hstep, <- IH.
  by destruct (AuthSliceV0.forget_action a).
Qed.

(** X7.  The initializer fetches the user when the module is loaded and
    does not fetch in a loop: once the fetch is pending, and once it has
    settled either way, its effect does nothing.  The status becomes
    [idle] again, so that the effect fetches again, only through a
    fulfilled logout. *)
Theorem initializer_fetches_once (state : AuthSlice.AuthState)
    (me : Fetch.Result AuthSlice.User) (action : AuthSlice.Action) :
  AuthInitializer.effect (AuthSlice.status AuthSlice.initialState) = true ∧
  AuthInitializer.effect
    (AuthSlice.status (AuthSlice.reducer state AuthSlice.fetchUser_pending)) = false ∧
  AuthInitializer.effect
    (AuthSlice.status (AuthThunks.reduce state (AuthThunks.dispatch_fetchUser me))) = false ∧
  (AuthInitializer.effect (AuthSlice.status state) = false →
   AuthInitializer.effect (AuthSlice.status (AuthSlice.reducer state action)) = true →
   action = AuthSlice.logoutUser_fulfilled).
Proof.
  split_and!; try done.
  - unfold AuthThunks.dispatch_fetchUser. cbn.
    by destruct (fetchUser_cases me) as [[u ->]|[p [-> _]]].
  - destruct action; cbn; try done; by destruct (AuthSlice.status state).
Qed.

Lemma initializer_fetches_once_witness :
  AuthInitializer.effect
    (AuthSlice.status (AuthSlice.reducer AuthSlice.initialState
                                         AuthSlice.fetchUser_pending)) = false ∧
  AuthSlice.logoutUser_fulfilled = AuthSlice.logoutUser_fulfilled.
Proof.
  destruct (initializer_fetches_once
              (AuthSlice.reducer AuthSlice.initialState AuthSlice.fetchUser_pending)
              (Fetch.Throws "") AuthSlice.logoutUser_fulfilled) as (_ & _ & _ & H).
  split; [reflexivity | exact (H eq_refl eq_refl)].
Defined.

(** ** The route guard and the pages *)

Section Routes.

Variable encodeURIComponent : string → string.

(** X8.  The route guard navigates in one case only: the auth check has
    settled (status [succeeded] or [failed]), the session is not
    authenticated and the path is neither "/login" nor "/register"; it
    then goes to the login page with the path, encoded, as
    [redirect_to].  It never navigates to "/": the branch that would
    is unreachable. *)
Theorem route_guard_redirect (isAuthenticated : bool) (authStatus : AuthSlice.Status)
    (pathname : string) :
  let target := ProtectedRoute.effect encodeURIComponent isAuthenticated authStatus pathname in
  (target = Some ("/login?redirect_to=" +:+ encodeURIComponent pathname) ↔
   (authStatus = AuthSlice.succeeded ∨ authStatus = AuthSlice.failed) ∧
   isAuthenticated = false ∧ pathname ≠ "/login" ∧ pathname ≠ "/register") ∧
  (target = None ∨ target = Some ("/login?redirect_to=" +:+ encodeURIComponent pathname)) ∧
  target ≠ Some "/".
Proof.
  cbn zeta. unfold ProtectedRoute.effect.
  destruct (String.eqb_spec pathname "/login") as [Hl|Hl];
    destruct (String.eqb_spec pathname "/register") as [Hr|Hr];
    destruct authStatus, isAuthenticated; cbn;
    (split_and!; [split; [try done | intros ([?|?] & ? & ? & ?); done] | auto | done]);
    intros _; split_and!; auto.
Qed.

(** X9.  What the route guard shows agrees with where it navigates: it
    shows nothing exactly when it redirects to the login page.  On a
    path other than "/login" and "/register" the children are shown
    exactly when the session is authenticated and the auth check has
    settled; while the status is [idle] or [loading] the loading
    indicator is shown there even to an authenticated session. *)
Theorem route_guard_coherent (isAuthenticated : bool) (authStatus : AuthSlice.Status)
    (pathname : string) :
  let view := ProtectedRoute.render isAuthenticated authStatus pathname in
  let target := ProtectedRoute.effect encodeURIComponent isAuthenticated authStatus pathname in
  (view = ProtectedRoute.Nothing ↔ target ≠ None) ∧
  (pathname ≠ "/login" → pathname ≠ "/register" →
   (view = ProtectedRoute.Children ↔
    isAuthenticated = true ∧
    (authStatus = AuthSlice.succeeded ∨ authStatus = AuthSlice.failed)) ∧
   (view = ProtectedRoute.LoadingSession ↔
    authStatus = AuthSlice.idle ∨ authStatus = AuthSlice.loading)).
Proof.
  cbn zeta. unfold ProtectedRoute.render, ProtectedRoute.effect.
  destruct (String.eqb_spec pathname "/login") as [Hl|Hl];
    destruct (String.eqb_spec pathname "/register") as [Hr|Hr];
    destruct authStatus, isAuthenticated; cbn;
    (split; [split; done | try done]);
    intros _ _; (split; split; try done);
    try (intros [? [?|?]]; done); try (intros [?|?]; done); auto.
Qed.

End Routes.

Lemma route_guard_coherent_witness :
  ProtectedRoute.render true AuthSlice.loading "/settings" = ProtectedRoute.LoadingSession.
Proof.
  pose proof (route_guard_coherent (λ s, s) true AuthSlice.loading "/settings") as H.
  cbn zeta in H. destruct H as [_ H].
  assert ("/settings" ≠ "/login") as H1 by discriminate.
  assert ("/settings" ≠ "/register") as H2 by discriminate.
  destruct (H H1 H2) as [_ [_ H3]]. apply H3. by right.
Defined.

(** X10.  The settings page shows the settings only after its effect has
    once seen an authenticated session with the auth check settled,
    and then only while the session of the moment is authenticated and
    settled; when it shows "Redirecting to login..." its effect
    navigates to "/login". *)
Theorem settings_page_gate (auths : list AuthSlice.AuthState) (auth : AuthSlice.AuthState) :
  let settled a :=
    AuthSlice.status a = AuthSlice.succeeded ∨ AuthSlice.status a = AuthSlice.failed in
  let st := SettingsPage.live SettingsPage.initial auths in
  (SettingsPage.isLoading st = false ↔
   ∃ a, a ∈ auths ∧ AuthSlice.isAuthenticated a = true ∧ settled a) ∧
  (∀ loggedInAs,
     SettingsPage.render auth st = SettingsPage.Settings loggedInAs →
     AuthSlice.isAuthenticated auth = true ∧ settled auth ∧
     SettingsPage.isLoading st = false) ∧
  (SettingsPage.render auth st = SettingsPage.Redirecting →
   SettingsPage.effect auth = Some (SettingsPage.Push "/login")).
Proof.
  cbn zeta. split_and!.
  - induction auths as [|a auths IH] using rev_ind.
    + cbn. split; [done|]. intros (a & Ha & _). by apply elem_of_nil in Ha.
    + unfold SettingsPage.live in *. rewrite foldl_app. cbn [foldl].
      set (st := foldl _ SettingsPage.initial auths) in *.
      set (P := λ a : AuthSlice.AuthState,
                  AuthSlice.isAuthenticated a = true ∧
                  (AuthSlice.status a = AuthSlice.succeeded ∨
                   AuthSlice.status a = AuthSlice.failed)) in *.
      assert ((∃ a', a' ∈ auths ++ [a] ∧ P a') ↔ (∃ a', a' ∈ auths ∧ P a') ∨ P a) as Hex.
      { split.
        - intros (a' & Hin & Ha'). apply elem_of_app in Hin as [Hin|Hin]; [by eauto|].
          apply list_elem_of_singleton in Hin as ->. by right.
        - intros [(a' & Hin & Ha')|Ha].
          + exists a'. split; [apply elem_of_app; by left | done].
          + exists a. split; [apply elem_of_app; right; by apply list_elem_of_singleton | done]. }
      split.
      * intros Hl. apply Hex. revert Hl.
        unfold SettingsPage.apply, SettingsPage.effect, P.
        destruct (AuthSlice.status a), (AuthSlice.isAuthenticated a); cbn;
          intros Hl; try (left; by apply IH); right; auto.
      * intros H. apply Hex in H as [H|H].
        -- apply IH in H. unfold SettingsPage.apply, SettingsPage.effect.
           by destruct (AuthSlice.status a), (AuthSlice.isAuthenticated a).
        -- destruct H as [Ha [Hs|Hs]];
             unfold SettingsPage.apply, SettingsPage.effect; by rewrite Ha, Hs.
  - intros loggedInAs. unfold SettingsPage.render.
    destruct (SettingsPage.isLoading _); [done|].
    destruct (AuthSlice.status auth), (AuthSlice.isAuthenticated auth); cbn; try done;
      intros _; auto.
  - unfold SettingsPage.render, SettingsPage.effect.
    destruct (SettingsPage.isLoading _); [done|].
    by destruct (AuthSlice.status auth), (AuthSlice.isAuthenticated auth).
Qed.

Lemma settings_page_gate_witness :
  SettingsPage.render Sample.signedIn
    (SettingsPage.live SettingsPage.initial [Sample.signedIn]) =
  SettingsPage.Settings (Some "alice@example.com") ∧
  SettingsPage.isLoading (SettingsPage.live SettingsPage.initial [Sample.signedIn]) = false.
Proof.
  destruct (settings_page_gate [Sample.signedIn] Sample.signedIn) as (_ & H & _).
  destruct (H (Some "alice@example.com") eq_refl) as (_ & _ & H').
  split; [reflexivity | exact H'].
Defined.

Section FailedRenewal.

Variable encodeURIComponent : string → string.


End FailedRenewal.


(** ** More on the client *)

Lemma answers_app l1 l2 :
  Answers.answers (l1 ++ l2) = Answers.answers l1 ++ Answers.answers l2.
Proof. apply omap_app. Qed.

Lemma foldl_insert_mono (f : Waiter → RequestConfig) q :
  ∀ (m : gmap nat RequestConfig) c,
  is_Some (m !! c) ∨ c ∈ callers q →
  is_Some (foldl (λ m p, <[caller p := f p]> m) m q !! c).
Proof.
  induction q as [|p q IH]; intros m c [Hc|Hc]; cbn [foldl].
  - done.
  - by apply elem_of_nil in Hc.
  - apply IH. left. destruct (decide (caller p = c)) as [<-|Hne].
    + rewrite lookup_insert_eq. by eexists.
    + by rewrite lookup_insert_ne.
  - cbn in Hc. apply elem_of_cons in Hc as [->|Hc].
    + apply IH. left. rewrite lookup_insert_eq. by eexists.
    + apply IH. by right.
Qed.

(** A caller leaves the wire for one of the other places. *)
Lemma Accounted_move w w' c sent :
  Answers.Accounted w → inflight w !! c = Some sent →
  Answers.settled_or_waiting w' ≡ₚ c :: Answers.settled_or_waiting w →
  inflight w' = delete c (inflight w) → nextId w' = nextId w →
  Answers.Accounted w'.
Proof.
  intros [Hnd Hap Hall] Hc Hperm Hi Hn.
  assert (c ∉ Answers.settled_or_waiting w) as Hfresh.
  { intros Hin. apply Hap in Hin. congruence. }
  split.
  - rewrite Hperm. by apply NoDup_cons.
  - intros c'. rewrite Hperm, Hi. intros Hin.
    apply lookup_delete_None. apply elem_of_cons in Hin as [->|Hin]; [by left|].
    right. by apply Hap.
  - intros c'. rewrite Hperm, Hi, Hn, Hall. split.
    + intros [Hin|Hin]; [left; apply elem_of_cons; by right|].
      destruct (decide (c = c')) as [<-|Hne].
      * left. apply elem_of_cons. by left.
      * right. by rewrite lookup_delete_ne.
    + intros [Hin|Hin].
      * apply elem_of_cons in Hin as [->|Hin]; [right; by rewrite Hc|by left].
      * right. apply lookup_delete_is_Some in Hin. apply Hin.
Qed.

Lemma Accounted_step w e :
  Inv w → Answers.Accounted w → Answers.Accounted (step w e).
Proof.
  intros Hw Hacc. pose proof Hw as [Hj Hs Hi Hq].
  destruct e as [cfg|c r|c r|t|r|o|a].
  - (* Call *)
    destruct Hacc as [Hnd Hap Hall].
    unfold step, handle, apiClient. rewrite drain_idle by done.
    assert (∀ sent m,
              Answers.settled_or_waiting
                (emit (Sent (nextId w) sent) (set_inflight m (set_nextId (S (nextId w)) w))) =
              Answers.settled_or_waiting w) as Hl.
    { intros sent m. unfold Answers.settled_or_waiting. cbn. rewrite answers_app. cbn.
      by rewrite app_nil_r. }
    split; rewrite ?Hl; cbn [inflight nextId emit set_inflight set_nextId]; [done| |].
    + intros c Hc. rewrite lookup_insert_ne; [by apply Hap|].
      intros <-. assert (nextId w < nextId w) by (apply Hall; by left). lia.
    + intros c. split.
      * intros Hlt. destruct (decide (nextId w = c)) as [<-|Hne].
        -- right. rewrite lookup_insert_eq. by eexists.
        -- rewrite lookup_insert_ne by done. apply Hall. lia.
      * intros [Hc|Hc].
        -- assert (c < nextId w) by (apply Hall; by left). lia.
        -- destruct (decide (nextId w = c)) as [<-|Hne]; [lia|].
           rewrite lookup_insert_ne in Hc by done.
           assert (c < nextId w) by (apply Hall; by right). lia.
  - (* ResponseOk *)
    unfold step, handle. destruct (inflight w !! c) as [sent|] eqn:Hc;
      [|by rewrite drain_idle].
    rewrite drain_idle by done.
    apply (Accounted_move w _ c sent); try done.
    unfold Answers.settled_or_waiting. cbn. rewrite answers_app. cbn.
    rewrite <- app_assoc. cbn. by rewrite <- Permutation_middle.
  - (* ResponseErr *)
    destruct (inflight w !! c) as [sent|] eqn:Hc;
      [|unfold step, handle; rewrite Hc; by rewrite drain_idle].
    destruct (is401 (mkError sent r) && negb (truthy_flag (_retry sent))) eqn:Hg.
    + destruct (isRefreshing w) eqn:Hr.
      * rewrite (step_enqueue w Hj c r sent Hc Hg Hr).
        apply (Accounted_move w _ c sent); try done.
        unfold Answers.settled_or_waiting, callers. cbn. rewrite answers_app, map_app. cbn.
        rewrite app_nil_r, !app_assoc. by rewrite <- Permutation_cons_append.
      * rewrite (step_initiate w Hj c r sent Hc Hg Hr).
        apply (Accounted_move w _ c sent); try done.
        unfold Answers.settled_or_waiting, callers. cbn. rewrite answers_app, map_app. cbn.
        rewrite app_nil_r, <- app_assoc. cbn.
        rewrite (app_assoc (Answers.answers (log w))).
        rewrite <- Permutation_middle. by rewrite <- app_assoc.
    + rewrite (step_pass w Hj c r sent Hc Hg).
      apply (Accounted_move w _ c sent); try done.
      unfold Answers.settled_or_waiting. cbn. rewrite answers_app. cbn.
      rewrite <- app_assoc. cbn. by rewrite <- Permutation_middle.
  - (* RefreshOk *)
    destruct (awaiting w) as [|frame rest] eqn:Ha;
      [unfold step, handle; rewrite Ha; by rewrite drain_idle|].
    assert (rest = []) as ->.
    { destruct (isRefreshing w); cbn in Hs; [|done]. by destruct rest. }
    destruct Hacc as [Hnd Hap Hall].
    unfold Answers.settled_or_waiting in Hnd, Hap, Hall. rewrite Ha in Hnd, Hap, Hall.
    cbn in Hnd, Hap, Hall.
    rewrite (step_refresh_ok w Hj frame [] t Ha). cbn zeta.
    set (resent := λ p, requestInterceptor _ _).
    assert (∀ l, Answers.answers
                   (log w ++ map (λ p, Settled (caller p) (Resolved (Some t))) (failedQueue w)
                          ++ Sent (caller frame) (resent frame)
                          :: map (λ p, Sent (caller p) (resent p)) l) =
                 Answers.answers (log w)) as Hans.
    { intros l. unfold Answers.answers. rewrite !omap_app. cbn.
      rewrite !omap_map. cbn. by rewrite !omap_none, !app_nil_r. }
    apply NoDup_app in Hnd as (Hnd1 & Hdisj & Hnd2).
    split; unfold Answers.settled_or_waiting;
      cbn [log awaiting failedQueue inflight nextId callers map]; rewrite Hans, !app_nil_r.
    + done.
    + intros c Hc. rewrite foldl_insert_other.
      * rewrite lookup_insert_ne; [apply Hap; apply elem_of_app; by left|].
        intros <-. apply (Hdisj _ Hc). apply elem_of_cons. by left.
      * intros Hin. apply (Hdisj _ Hc). apply elem_of_cons. by right.
    + intros c. rewrite Hall. split.
      * intros [Hc|Hc].
        -- apply elem_of_app in Hc as [Hc|Hc]; [by left|]. right.
           apply foldl_insert_mono. apply elem_of_cons in Hc as [->|Hc]; [left|by right].
           rewrite lookup_insert_eq. by eexists.
        -- right. apply foldl_insert_mono. left.
           destruct (decide (caller frame = c)) as [<-|Hne].
           ++ rewrite lookup_insert_eq. by eexists.
           ++ by rewrite lookup_insert_ne.
      * intros [Hc|Hc]; [left; apply elem_of_app; by left|].
        apply foldl_insert_is_Some in Hc as [Hc|Hc].
        -- destruct (decide (caller frame = c)) as [<-|Hne].
           ++ left. apply elem_of_app. right. apply elem_of_cons. by left.
           ++ rewrite lookup_insert_ne in Hc by done. by right.
        -- left. apply elem_of_app. right. apply elem_of_cons. by right.
  - (* RefreshErr *)
    destruct (awaiting w) as [|frame rest] eqn:Ha;
      [unfold step, handle; rewrite Ha; by rewrite drain_idle|].
    assert (rest = []) as ->.
    { destruct (isRefreshing w); cbn in Hs; [|done]. by destruct rest. }
    destruct Hacc as [Hnd Hap Hall].
    unfold Answers.settled_or_waiting in Hnd, Hap, Hall. rewrite Ha in Hnd, Hap, Hall.
    cbn in Hnd, Hap, Hall.
    rewrite (step_refresh_err w Hj frame [] r Ha). cbn zeta.
    assert (Answers.answers
              (log w ++ LogoutPost
                 :: map (λ p, Settled (caller p) (Rejected (mkError refreshRequest r)))
                        (failedQueue w)
                 ++ Thrown (caller frame) (mkError refreshRequest r)
                 :: map (λ p, Thrown (caller p) (mkError refreshRequest r)) (failedQueue w)) =
            Answers.answers (log w) ++ caller frame :: callers (failedQueue w)) as Hans.
    { unfold Answers.answers. rewrite !omap_app. cbn. rewrite !omap_app. cbn.
      rewrite !omap_map. cbn. by rewrite omap_none, omap_some. }
    split; unfold Answers.settled_or_waiting;
      cbn [log awaiting failedQueue inflight nextId callers map]; rewrite Hans, !app_nil_r;
      done.
  - (* LogoutSettled *)
    unfold step, handle. rewrite drain_idle by done. by destruct Hacc.
  - (* StoreAction *)
    unfold step, handle. rewrite drain_idle by done. by destruct Hacc.
Qed.

Lemma Accounted_init : Answers.Accounted init.
Proof.
  split; cbn.
  - constructor.
  - done.
  - intros c. split; [lia|]. intros [Hc|Hc]; [by apply elem_of_nil in Hc|].
    rewrite lookup_empty in Hc. by destruct Hc.
Qed.

(** X12.  Every call made to the client is, at any time, in exactly one
    place: its promise has been settled, once, or its interceptor call
    is suspended at the renewal call, or it is queued, or its request
    is on the wire.  No call is answered twice and none is lost. *)
Theorem every_call_accounted (w : World) :
  reachable w →
  NoDup (Answers.answers (log w) ++ callers (awaiting w) ++ callers (failedQueue w)) ∧
  (∀ c, c ∈ Answers.answers (log w) ++ callers (awaiting w) ++ callers (failedQueue w) →
        inflight w !! c = None) ∧
  (∀ c, c < nextId w ↔
        c ∈ Answers.answers (log w) ++ callers (awaiting w) ++ callers (failedQueue w) ∨
        is_Some (inflight w !! c)).
Proof.
  intros [es ->].
  assert (∀ w0, Inv w0 → Answers.Accounted w0 → Answers.Accounted (run w0 es)) as H.
  { induction es as [|e es IH]; intros w0 H1 H2; [done|].
    cbn [run foldl]. apply IH; [by apply Inv_step | by apply Accounted_step]. }
  destruct (H init Inv_init Accounted_init) as [H1 H2 H3]. done.
Qed.

Lemma every_call_accounted_witness :
  NoDup (Answers.answers (log Scenario.laterSent) ++
         callers (awaiting Scenario.laterSent) ++ callers (failedQueue Scenario.laterSent)).
Proof.
  assert (reachable Scenario.laterSent) as Hreach.
  { exists ([StoreAction (AuthSlice.loginUser_fulfilled "T1");
             Call Scenario.getA; Call Scenario.getB; Call Scenario.getC]
            ++ failures Scenario.r401 [0; 1; 2]
            ++ [RefreshOk "T2"; ResponseOk 0 Scenario.r200; ResponseOk 1 Scenario.r200;
                ResponseOk 2 Scenario.r200; Call Scenario.getA; Call Scenario.getB]).
    vm_compute. reflexivity. }
  destruct (every_call_accounted Scenario.laterSent Hreach) as [H _].
  exact H.
Defined.

Lemma store_handle w e :
  store (handle e w) =
  match e with
  | Call _ | ResponseOk _ _ | ResponseErr _ _ => store w
  | RefreshOk token =>
      match awaiting w with
      | [] => store w
      | _ => AuthSlice.reducer (store w) (AuthSlice.setAccessToken (Some token))
      end
  | RefreshErr _ =>
      match awaiting w with
      | [] => store w
      | _ => AuthSlice.reducer (store w) AuthSlice.logoutUser_pending
      end
  | LogoutSettled o => AuthSlice.reducer (store w) (AuthSlice.logoutUser o)
  | StoreAction a => AuthSlice.reducer (store w) a
  end.
Proof.
  destruct e as [cfg|c r|c r|t|r|o|a]; cbn [handle].
  - done.
  - by destruct (inflight w !! c).
  - destruct (inflight w !! c) as [sent|]; [|done].
    unfold responseErrorInterceptor. cbn [config].
    destruct (is401 _ && _); [|done].
    cbn [isRefreshing set_inflight]. by destruct (isRefreshing w).
  - destruct (awaiting w) as [|frame rest]; [done|].
    unfold resumeInterceptor, processQueue. by rewrite foldl_settle.
  - destruct (awaiting w) as [|frame rest]; [done|].
    unfold resumeInterceptor, processQueue. by rewrite foldl_settle.
  - done.
  - done.
Qed.

(** X13.  Requests, responses and successful renewals never sign the
    user in or out: over any run of such events the store keeps its
    authentication flag, user, status and error, so the route guard and
    the settings page render as before; the credential is the old one
    or one that a renewal of the run returned. *)
Theorem traffic_keeps_session (w : World) (es : list Event) (pathname : string)
    (st : SettingsPage.State) :
  Forall (λ e, match e with
               | RefreshErr _ | LogoutSettled _ | StoreAction _ => False
               | _ => True
               end) es →
  let s := store w in
  let s' := store (run w es) in
  AuthSlice.isAuthenticated s' = AuthSlice.isAuthenticated s ∧
  AuthSlice.user s' = AuthSlice.user s ∧
  AuthSlice.status s' = AuthSlice.status s ∧
  AuthSlice.error s' = AuthSlice.error s ∧
  (AuthSlice.accessToken s' = AuthSlice.accessToken s ∨
   ∃ token, RefreshOk token ∈ es ∧ AuthSlice.accessToken s' = Some token) ∧
  ProtectedRoute.render (AuthSlice.isAuthenticated s') (AuthSlice.status s') pathname =
  ProtectedRoute.render (AuthSlice.isAuthenticated s) (AuthSlice.status s) pathname ∧
  SettingsPage.render s' st = SettingsPage.render s st.
Proof.
  intros Hes. cbn zeta.
  assert (AuthSlice.isAuthenticated (store (run w es)) = AuthSlice.isAuthenticated (store w) ∧
          AuthSlice.user (store (run w es)) = AuthSlice.user (store w) ∧
          AuthSlice.status (store (run w es)) = AuthSlice.status (store w) ∧
          AuthSlice.error (store (run w es)) = AuthSlice.error (store w) ∧
          (AuthSlice.accessToken (store (run w es)) = AuthSlice.accessToken (store w) ∨
           ∃ token, RefreshOk token ∈ es ∧
                    AuthSlice.accessToken (store (run w es)) = Some token)) as H.
  { revert w. induction Hes as [|e es He Hes IH]; intros w.
    - split_and!; try done. by left.
    - cbn [run foldl]. destruct (IH (step w e)) as (H1 & H2 & H3 & H4 & H5).
      fold (run (step w e) es). rewrite H1, H2, H3, H4.
      assert (AuthSlice.accessToken (store (step w e)) = AuthSlice.accessToken (store w) ∨
              ∃ token, e = RefreshOk token ∧
                       AuthSlice.accessToken (store (step w e)) = Some token) as H6.
      { unfold step. rewrite store_drain, store_handle.
        destruct e as [cfg|c r|c r|t|r|o|a]; try done; try by left.
        destruct (awaiting w); [by left|]. right. by exists t. }
      split_and!.
      1-4: unfold step; rewrite store_drain, store_handle;
           destruct e as [cfg|c r|c r|t|r|o|a]; try done; by destruct (awaiting w).
      destruct H5 as [H5|(token & Hin & H5)].
      + rewrite H5. destruct H6 as [H6|(token & -> & H6)]; [by left|].
        right. exists token. split; [apply elem_of_cons; by left|done].
      + right. exists token. split; [apply elem_of_cons; by right|done]. }
  destruct H as (H1 & H2 & H3 & H4 & H5).
  split_and!; try done.
  - by rewrite H1, H3.
  - unfold SettingsPage.render. by rewrite H1, H2, H3.
Qed.

Lemma traffic_keeps_session_witness :
  AuthSlice.status
    (store (run Scenario.threeSent
              [ResponseErr 0 (Some Scenario.r401); ResponseErr 1 (Some Scenario.r401);
               RefreshOk "T2"; Call Scenario.getA])) = AuthSlice.succeeded.
Proof.
  assert (Forall (λ e, match e with
                       | RefreshErr _ | LogoutSettled _ | StoreAction _ => False
                       | _ => True
                       end)
            [ResponseErr 0 (Some Scenario.r401); ResponseErr 1 (Some Scenario.r401);
             RefreshOk "T2"; Call Scenario.getA]) as Hes.
  { repeat constructor. }
  destruct (traffic_keeps_session Scenario.threeSent _ "/settings" SettingsPage.initial Hes)
    as (_ & _ & H & _).
  rewrite H. vm_compute. reflexivity.
Defined.

(** X14.  A failed renewal does not stop the client.  Until the logout
    request settles, the store still holds the old credential and a new
    request is sent with it; and an authentication failure of that
    request starts another renewal, while the logout is under way. *)
Theorem stale_credential_window (w : World) (r : option AxiosResponse)
    (config : RequestConfig) (token : string) (r' : AxiosResponse) :
  reachable w → isRefreshing w = true →
  AuthSlice.selectAccessToken (store w) = Some token → token ≠ "" →
  truthy_flag (_retry config) = false → status r' = 401 →
  let w1 := step w (RefreshErr r) in
  let w2 := step w1 (Call config) in
  let w3 := step w2 (ResponseErr (nextId w1) (Some r')) in
  isRefreshing w1 = false ∧
  AuthSlice.selectAccessToken (store w1) = Some token ∧
  sends (log w2) =
    sends (log w1) ++ [(nextId w1, setAuthorization ("Bearer " +:+ token) config)] ∧
  renewals (log w3) = S (renewals (log w1)) ∧
  logouts (log w3) = logouts (log w1) ∧
  isRefreshing w3 = true ∧
  callers (awaiting w3) = [nextId w1] ∧
  AuthSlice.selectAccessToken (store w3) = Some token.
Proof.
  intros Hreach Hr Ht Hne Hflag H401 w1 w2 w3.
  pose proof (reachable_Inv w Hreach) as [Hj Hs Hi Hq].
  rewrite Hr in Hs. destruct (awaiting w) as [|frame [|]] eqn:Ha; try done.
  assert (reachable w1) as Hreach1 by by apply reachable_step.
  assert (reachable w2) as Hreach2 by by apply reachable_step.
  pose proof (reachable_Inv w1 Hreach1) as [Hj1 _ _ _].
  pose proof (reachable_Inv w2 Hreach2) as [Hj2 _ _ _].
  assert (isRefreshing w1 = false ∧ awaiting w1 = [] ∧
          AuthSlice.selectAccessToken (store w1) = Some token) as (Hr1 & Ha1 & Ht1).
  { subst w1. rewrite (step_refresh_err w Hj frame [] r Ha). cbn.
    by split_and!. }
  assert (requestInterceptor (store w1) config =
          setAuthorization ("Bearer " +:+ token) config) as Hsent.
  { unfold requestInterceptor. rewrite Ht1. cbn.
    apply String.eqb_neq in Hne. by rewrite Hne. }
  assert (w2 = emit (Sent (nextId w1) (setAuthorization ("Bearer " +:+ token) config))
                 (set_inflight (<[nextId w1 := setAuthorization ("Bearer " +:+ token) config]>
                                  (inflight w1))
                    (set_nextId (S (nextId w1)) w1))) as Hw2.
  { subst w2. unfold step, handle, apiClient. rewrite drain_idle by done.
    cbn [store set_nextId inflight]. by rewrite Hsent. }
  assert (w3 = emit RefreshPost
                 (set_awaiting
                    (awaiting w2 ++
                     [mkWaiter (nextId w1)
                        (markRetry (setAuthorization ("Bearer " +:+ token) config))])
                    (set_isRefreshing true
                       (set_inflight (delete (nextId w1) (inflight w2)) w2)))) as Hw3.
  { subst w3. apply (step_initiate w2 Hj2).
    - rewrite Hw2. cbn. apply lookup_insert_eq.
    - unfold is401. cbn. rewrite H401, Hflag. done.
    - rewrite Hw2. cbn. done. }
  clearbody w3 w2. subst w3 w2. cbn. rewrite Ha1.
  split_and!; try done; log_norm; try done; lia.
Qed.

Lemma stale_credential_window_witness :
  sends (log (step (step Scenario.threeFailed (RefreshErr (Some Scenario.r403)))
                (Call Scenario.getA))) =
  sends (log (step Scenario.threeFailed (RefreshErr (Some Scenario.r403)))) ++
  [(3, setAuthorization "Bearer T1" Scenario.getA)].
Proof.
  assert (reachable Scenario.threeFailed) as Hreach.
  { exists ([StoreAction (AuthSlice.loginUser_fulfilled "T1");
             Call Scenario.getA; Call Scenario.getB; Call Scenario.getC]
            ++ failures Scenario.r401 [0; 1; 2]).
    vm_compute. reflexivity. }
  assert ("T1" ≠ "") as Hne by discriminate.
  destruct (stale_credential_window Scenario.threeFailed (Some Scenario.r403)
              Scenario.getA "T1" Scenario.r401 Hreach eq_refl eq_refl Hne eq_refl eq_refl)
    as (_ & _ & H & _).
  cbn zeta in H. rewrite H. vm_compute. reflexivity.
Defined.

(** ** The API key components *)

Section Dialog.

Variable trim : string → string.

(** X15.  Submitting the key form.  Without a credential nothing is
    requested: only the error is set.  With one, exactly one request
    is made, with the credential as bearer token and the trimmed name
    if that is not empty; the form is enabled again at the end; and
    either the response was a success with a body, the key is stored
    and shown and the parent is told once, or an error is stored and
    shown in a toast with the same message, and the parent is not told. *)
Theorem generate_key_submit (accessToken : option string)
    (o : Fetch.Result GenerateApiKeyDialog.NewApiKeyInfo) (st : GenerateApiKeyDialog.State) :
  let st' := (GenerateApiKeyDialog.handleSubmit trim accessToken o st).1 in
  let effects := (GenerateApiKeyDialog.handleSubmit trim accessToken o st).2 in
  GenerateApiKeyDialog.isOpen st' = GenerateApiKeyDialog.isOpen st ∧
  GenerateApiKeyDialog.keyName st' = GenerateApiKeyDialog.keyName st ∧
  if truthy accessToken then
    GenerateApiKeyDialog.isLoading st' = false ∧
    ∃ rest,
      effects =
        GenerateApiKeyDialog.Post (bearer accessToken)
          (if String.eqb (trim (GenerateApiKeyDialog.keyName st)) "" then None
           else Some (trim (GenerateApiKeyDialog.keyName st))) :: rest ∧
      ((∃ response value,
          o = Fetch.Responds response ∧ Fetch.ok response = true ∧
          Fetch.json response = Fetch.JsonParsed value ∧
          GenerateApiKeyDialog.newApiKeyInfo st' = Some (Fetch.data value) ∧
          GenerateApiKeyDialog.error st' = None ∧
          rest = [GenerateApiKeyDialog.OnKeyGenerated] ∧
          GenerateApiKeyDialog.content st' = GenerateApiKeyDialog.KeyGenerated (Fetch.data value)) ∨
       (∃ message,
          GenerateApiKeyDialog.newApiKeyInfo st' = None ∧
          GenerateApiKeyDialog.error st' = Some message ∧
          rest = [GenerateApiKeyDialog.Toast "Error generating API key" message true] ∧
          GenerateApiKeyDialog.content st' =
            GenerateApiKeyDialog.Form (if String.eqb message "" then None else Some message)
              false ∧
          (∀ response, o = Fetch.Responds response → Fetch.ok response = true →
                       Fetch.json response = Fetch.JsonThrows message)))
  else
    effects = [] ∧
    GenerateApiKeyDialog.isLoading st' = GenerateApiKeyDialog.isLoading st ∧
    GenerateApiKeyDialog.newApiKeyInfo st' = GenerateApiKeyDialog.newApiKeyInfo st ∧
    GenerateApiKeyDialog.error st' =
      Some "Authentication token not found. Please log in again.".
Proof.
  unfold GenerateApiKeyDialog.handleSubmit.
  destruct (truthy accessToken) eqn:Ht; cbn [negb]; [|by cbn].
  cbn [GenerateApiKeyDialog.keyName].
  destruct (String.eqb (trim (GenerateApiKeyDialog.keyName st)) "") eqn:Hn; cbn [negb].
  all: destruct o as [message|response];
    [|destruct (Fetch.json response) as [message|value] eqn:Hjson;
      [|destruct (Fetch.ok response) eqn:Hok; cbn [negb]]].
  all: cbn; split_and!; try done; eexists; (split; [done|]).
  all: try (right; eexists; split; [done|]; split; [reflexivity|]; split; [reflexivity|];
            split; [by match goal with
                          | |- context [String.eqb ?m ""] => destruct (String.eqb m "")
                          end|];
            intros response' Heq; try discriminate; injection Heq as <-; congruence).
  all: left; exists response, value; by split_and!.
Qed.

End Dialog.

(** X16.  The clipboard only ever gets the key that the dialog shows,
    and never an empty one; closing the dialog forgets the key, the
    error and the typed name, so that nothing can be copied and the
    dialog opens again on the empty form. *)
Theorem dialog_key_lifetime (st : GenerateApiKeyDialog.State) :
  (∀ text,
     GenerateApiKeyDialog.ClipboardWrite text ∈ GenerateApiKeyDialog.handleCopyToClipboard st →
     text ≠ "" ∧
     ∃ info, GenerateApiKeyDialog.content st = GenerateApiKeyDialog.KeyGenerated info ∧
             GenerateApiKeyDialog.api_key info = text) ∧
  let closed := GenerateApiKeyDialog.onOpenChange false st in
  GenerateApiKeyDialog.handleCopyToClipboard closed = [] ∧
  GenerateApiKeyDialog.keyName closed = "" ∧
  GenerateApiKeyDialog.isOpen closed = false ∧
  GenerateApiKeyDialog.content (GenerateApiKeyDialog.onOpenChange true closed) =
    GenerateApiKeyDialog.Form None (GenerateApiKeyDialog.isLoading st) ∧
  GenerateApiKeyDialog.content (GenerateApiKeyDialog.onOpenChange true st) =
    GenerateApiKeyDialog.content st.
Proof.
  split; [|done].
  intros text. unfold GenerateApiKeyDialog.handleCopyToClipboard, GenerateApiKeyDialog.content.
  destruct (GenerateApiKeyDialog.newApiKeyInfo st) as [info|]; cbn beta iota;
    [|by intros ?%elem_of_nil].
  destruct (String.eqb (GenerateApiKeyDialog.api_key info) "") eqn:Hk; cbn [negb];
    [by intros ?%elem_of_nil|].
  intros [= ->]%list_elem_of_singleton. split; [by apply String.eqb_neq|by exists info].
Qed.

(** X17.  Loading the key list.  The list never stays in its loading
    state.  Without a credential nothing is requested and the
    component shows that it is not authenticated.  With one, one
    request is made with the credential as bearer token.  An ok
    response with a parsed body replaces the keys, clears the error and
    shows the new keys, with no toast; every other outcome, and no
    other, is a failure: it keeps the keys that were there and stores
    the error, which is shown in a toast, and an error with a message
    hides the keys behind the error text. *)
Theorem key_list_fetch (accessToken : option string)
    (o : Fetch.Result (list ApiKeyList.ApiKey)) (st : ApiKeyList.State) :
  let st' := (ApiKeyList.fetchApiKeys accessToken o st).1 in
  let effects := (ApiKeyList.fetchApiKeys accessToken o st).2 in
  ApiKeyList.isLoading st' = false ∧
  ApiKeyList.render st' ≠ ApiKeyList.LoadingKeys ∧
  if truthy accessToken then
    ∃ rest,
      effects = ApiKeyList.Get (bearer accessToken) :: rest ∧
      ((∃ response value,
          o = Fetch.Responds response ∧ Fetch.ok response = true ∧
          Fetch.json response = Fetch.JsonParsed value ∧
          ApiKeyList.apiKeys st' = Fetch.data value ∧ ApiKeyList.error st' = None ∧
          rest = [] ∧
          ApiKeyList.render st' =
            match Fetch.data value with
            | [] => ApiKeyList.NoKeys
            | rows => ApiKeyList.Table rows
            end) ∨
       ((∀ response value,
           o = Fetch.Responds response → Fetch.ok response = true →
           Fetch.json response ≠ Fetch.JsonParsed value) ∧
        ∃ message,
          ApiKeyList.apiKeys st' = ApiKeyList.apiKeys st ∧
          ApiKeyList.error st' = Some message ∧
          rest = [ApiKeyList.Toast "Error fetching API keys" message true] ∧
          (message ≠ "" → ApiKeyList.render st' = ApiKeyList.ErrorText message) ∧
          (message = "" →
           ApiKeyList.render st' =
             match ApiKeyList.apiKeys st with
             | [] => ApiKeyList.NoKeys
             | rows => ApiKeyList.Table rows
             end)))
  else
    effects = [] ∧
    ApiKeyList.apiKeys st' = ApiKeyList.apiKeys st ∧
    ApiKeyList.render st' = ApiKeyList.ErrorText "Not authenticated to fetch API keys.".
Proof.
  unfold ApiKeyList.fetchApiKeys.
  destruct (truthy accessToken) eqn:Ht; cbn [negb]; [|by cbn].
  assert (∀ message keys,
            ApiKeyList.render (ApiKeyList.mkState keys false (Some message)) ≠
              ApiKeyList.LoadingKeys ∧
            (message ≠ "" →
             ApiKeyList.render (ApiKeyList.mkState keys false (Some message)) =
               ApiKeyList.ErrorText message) ∧
            (message = "" →
             ApiKeyList.render (ApiKeyList.mkState keys false (Some message)) =
               match keys with
               | [] => ApiKeyList.NoKeys
               | rows => ApiKeyList.Table rows
               end)) as Hrender.
  { intros message keys. unfold ApiKeyList.render. cbn.
    destruct (String.eqb message "") eqn:Hm; cbn.
    - apply String.eqb_eq in Hm. by destruct keys.
    - apply String.eqb_neq in Hm. by split_and!. }
  assert (∀ message,
            (∀ response value,
               o = Fetch.Responds response → Fetch.ok response = true →
               Fetch.json response ≠ Fetch.JsonParsed value) →
            let st' := ApiKeyList.mkState (ApiKeyList.apiKeys st) false (Some message) in
            ApiKeyList.isLoading st' = false ∧
            ApiKeyList.render st' ≠ ApiKeyList.LoadingKeys ∧
            ∃ rest,
              ApiKeyList.Get (bearer accessToken)
                :: [ApiKeyList.Toast "Error fetching API keys" message true] =
              ApiKeyList.Get (bearer accessToken) :: rest ∧
              ((∃ response value,
                  o = Fetch.Responds response ∧ Fetch.ok response = true ∧
                  Fetch.json response = Fetch.JsonParsed value ∧
                  ApiKeyList.apiKeys st' = Fetch.data value ∧ ApiKeyList.error st' = None ∧
                  rest = [] ∧
                  ApiKeyList.render st' =
                    match Fetch.data value with
                    | [] => ApiKeyList.NoKeys
                    | rows => ApiKeyList.Table rows
                    end) ∨
               ((∀ response value,
                   o = Fetch.Responds response → Fetch.ok response = true →
                   Fetch.json response ≠ Fetch.JsonParsed value) ∧
                ∃ message,
                  ApiKeyList.apiKeys st' = ApiKeyList.apiKeys st ∧
                  ApiKeyList.error st' = Some message ∧
                  rest = [ApiKeyList.Toast "Error fetching API keys" message true] ∧
                  (message ≠ "" → ApiKeyList.render st' = ApiKeyList.ErrorText message) ∧
                  (message = "" →
                   ApiKeyList.render st' =
                     match ApiKeyList.apiKeys st with
                     | [] => ApiKeyList.NoKeys
                     | rows => ApiKeyList.Table rows
                     end)))) as Hfail.
  { intros message Hno st'.
    destruct (Hrender message (ApiKeyList.apiKeys st)) as (R1 & R2 & R3).
    split_and!; [done|exact R1|]. eexists. split; [done|]. right. split; [exact Hno|].
    exists message.
    split_and!; [done|done|done|exact R2|].
    intros ->. subst st'. unfold ApiKeyList.render. cbn. by destruct (ApiKeyList.apiKeys st). }
  destruct o as [message|response];
    [|destruct (Fetch.ok response) eqn:Hok; cbn [negb];
      destruct (Fetch.json response) as [message|value] eqn:Hjson].
  1, 2, 4, 5: apply Hfail; intros response' value' Heq Hok'; try discriminate Heq;
    injection Heq as <-; congruence.
  cbn. split_and!.
  - done.
  - by destruct (Fetch.data value).
  - eexists. split; [done|]. left. exists response, value. by split_and!.
Qed.

(** X18.  Revoking a key.  Nothing is deleted without a credential or
    without the user's confirmation.  Otherwise one delete request is
    made for that key prefix with the credential as bearer token, and
    the list is loaded again exactly when the response was a success;
    a response that was not leads to one error toast, whose text is
    never empty, and the list is left as it is. *)
Theorem revoke_key (keyPrefix : string) (accessToken : option string) (confirmed : bool)
    (o : Fetch.Result unit) :
  let effects := ApiKeyList.handleRevoke keyPrefix accessToken confirmed o in
  (ApiKeyList.Delete keyPrefix (bearer accessToken) ∈ effects ↔
   truthy accessToken = true ∧ confirmed = true) ∧
  (∀ prefix authorization,
     ApiKeyList.Delete prefix authorization ∈ effects →
     prefix = keyPrefix ∧ authorization = bearer accessToken ∧
     ∃ rest, effects = ApiKeyList.Delete prefix authorization :: rest ∧
             ∀ prefix' authorization', ApiKeyList.Delete prefix' authorization' ∉ rest) ∧
  (ApiKeyList.FetchApiKeys ∈ effects ↔
   truthy accessToken = true ∧ confirmed = true ∧
   ∃ response, o = Fetch.Responds response ∧ Fetch.ok response = true) ∧
  (truthy accessToken = true → confirmed = true →
   ∀ response, o = Fetch.Responds response → Fetch.ok response = false →
   ∃ description,
     description ≠ "" ∧
     effects = [ApiKeyList.Delete keyPrefix (bearer accessToken);
                ApiKeyList.Toast "Error revoking API key" description true]).
Proof.
  unfold ApiKeyList.handleRevoke.
  destruct (truthy accessToken) eqn:Ht; cbn [negb];
    [destruct confirmed; cbn [negb]|].
  - (* the request is made *)
    assert (∀ response : Fetch.Response unit,
              match Fetch.json response with
              | Fetch.JsonParsed errorData =>
                  or_else (Fetch.detail errorData)
                    ("Failed to revoke API key: " +:+ Fetch.statusText response)
              | Fetch.JsonThrows _ =>
                  "Failed to revoke API key: " +:+ Fetch.statusText response
              end ≠ "") as Hne.
    { intros response. destruct (Fetch.json response) as [m|v]; [done|].
      by apply or_else_not_empty. }
    cbn zeta. split_and!.
    + split; [done|]. intros _. apply elem_of_cons. by left.
    + intros prefix authorization Hin.
      assert (prefix = keyPrefix ∧ authorization = bearer accessToken) as [-> ->].
      { apply elem_of_cons in Hin as [[= -> ->]|Hin]; [done|].
        destruct o as [message|response]; [|destruct (Fetch.ok response)]; cbn in Hin;
          repeat (apply elem_of_cons in Hin as [Hin|Hin]; [done|]);
          by apply elem_of_nil in Hin. }
      split_and!; try done. eexists. split; [done|].
      intros prefix' authorization' Hin'.
      destruct o as [message|response]; [|destruct (Fetch.ok response)]; cbn in Hin';
        repeat (apply elem_of_cons in Hin' as [Hin'|Hin']; [done|]);
        by apply elem_of_nil in Hin'.
    + split.
      * intros Hin. split_and!; try done.
        apply elem_of_cons in Hin as [Hin|Hin]; [done|].
        destruct o as [message|response]; [|destruct (Fetch.ok response) eqn:Hok];
          cbn in Hin.
        -- apply elem_of_cons in Hin as [Hin|Hin]; [done|]. by apply elem_of_nil in Hin.
        -- by exists response.
        -- apply elem_of_cons in Hin as [Hin|Hin]; [done|]. by apply elem_of_nil in Hin.
      * intros (_ & _ & response & -> & Hok). rewrite Hok. cbn.
        apply elem_of_cons. right. apply elem_of_cons. right. apply elem_of_cons. by left.
    + intros _ _ response -> Hok. rewrite Hok. cbn. eexists. split; [apply (Hne response)|done].
  - (* not confirmed *)
    cbn zeta. split_and!.
    + split; [by intros ?%elem_of_nil|by intros [_ ?]].
    + by intros ?? ?%elem_of_nil.
    + split; [by intros ?%elem_of_nil|by intros (_ & ? & _)].
    + done.
  - (* no credential *)
    cbn zeta. split_and!.
    + split; [|by intros [? _]].
      intros Hin. apply elem_of_cons in Hin as [Hin|Hin]; [done|by apply elem_of_nil in Hin].
    + intros ?? Hin. apply elem_of_cons in Hin as [Hin|Hin]; [done|by apply elem_of_nil in Hin].
    + split; [|by intros (? & _)].
      intros Hin. apply elem_of_cons in Hin as [Hin|Hin]; [done|by apply elem_of_nil in Hin].
    + done.
Qed.

(** ** The properties above at concrete inputs *)

Lemma authenticated_iff_user_witness :
  AuthSlice.isAuthenticated
    (AuthThunks.reduce AuthSlice.initialState [AuthSlice.clearAuthError]) = false.
Proof.
  destruct (authenticated_iff_user [AuthSlice.clearAuthError]) as [_ H].
  apply H. reflexivity.
Defined.

Lemma fetchUser_lifecycle_witness :
  AuthThunks.reduce Sample.signedIn
    (AuthThunks.dispatch_fetchUser (Fetch.Responds Sample.unauthorized)) =
  AuthSlice.mkAuthState false None (Some "T1") AuthSlice.failed None ∧
  AuthSlice.isAuthenticated
    (AuthThunks.reduce Sample.signedIn
       (AuthThunks.dispatch_fetchUser (Fetch.Responds Sample.serverError))) = false.
Proof.
  split.
  - pose proof (fetchUser_lifecycle Sample.signedIn (Fetch.Responds Sample.unauthorized)) as H.
    cbn zeta in H. destruct H as (_ & _ & H & _).
    rewrite (H Sample.unauthorized eq_refl eq_refl). reflexivity.
  - pose proof (fetchUser_lifecycle Sample.signedIn (Fetch.Responds Sample.serverError)) as H.
    cbn zeta in H. destruct H as (_ & _ & _ & H & _).
    apply H. intros response value [= <-] Hok. discriminate Hok.
Defined.

Lemma login_submit_witness :
  LoginPage.effect
    (AuthSlice.isAuthenticated
       (AuthThunks.reduce AuthSlice.initialState
          (LoginPage.handleSubmit (Fetch.Responds Sample.loggedIn)
             (Fetch.Responds Sample.me)))) =
  [LoginPage.Push "/"; LoginPage.Dispatch AuthSlice.clearAuthError] ∧
  AuthSlice.fetchUser_pending ∈
    LoginPage.handleSubmit (Fetch.Responds Sample.nullBody) (Fetch.Responds Sample.me).
Proof.
  split.
  - pose proof (login_submit AuthSlice.initialState (Fetch.Responds Sample.loggedIn)
                  (Fetch.Responds Sample.me)) as H.
    cbn in H. destruct H as (_ & _ & _ & H). apply H. reflexivity.
  - pose proof (login_submit AuthSlice.initialState (Fetch.Responds Sample.nullBody)
                  (Fetch.Responds Sample.me)) as H.
    cbn in H. destruct H as (_ & _ & H). apply H.
    exists Sample.nullBody. eexists. eexists. split_and!; reflexivity.
Defined.

Lemma rejected_payload_not_empty_witness :
  AuthThunks.rejected_payload (AuthThunks.fetchUser (Fetch.Throws "")) = Some "Network error" ∧
  "Network error" ≠ "".
Proof.
  split; [reflexivity|].
  apply (rejected_payload_not_empty (Fetch.Throws "") (Fetch.Throws "") (Fetch.Throws "")
           (AuthSlice.FetchThrows "") (AuthThunks.fetchUser (Fetch.Throws ""))).
  - left. reflexivity.
  - reflexivity.
Defined.

Lemma route_guard_redirect_witness :
  ProtectedRoute.effect (λ s, s) false AuthSlice.failed "/settings" =
  Some ("/login?redirect_to=" +:+ "/settings").
Proof.
  destruct (route_guard_redirect (λ s, s) false AuthSlice.failed "/settings") as [[_ H] _].
  apply H. split_and!; [by right|done|discriminate|discriminate].
Defined.

Lemma dialog_key_lifetime_witness :
  GenerateApiKeyDialog.handleCopyToClipboard
    (GenerateApiKeyDialog.handleSubmit (λ s, s) (Some "T1")
       (Fetch.Responds Sample.created) Sample.typed).1 =
  [GenerateApiKeyDialog.ClipboardWrite "om-3f9a"] ∧
  "om-3f9a" ≠ "".
Proof.
  split; [reflexivity|].
  destruct (dialog_key_lifetime
              (GenerateApiKeyDialog.handleSubmit (λ s, s) (Some "T1")
                 (Fetch.Responds Sample.created) Sample.typed).1) as [H _].
  apply (H "om-3f9a"). vm_compute. apply list_elem_of_here.
Defined.

Lemma key_list_fetch_witness :
  ApiKeyList.render
    (ApiKeyList.fetchApiKeys (Some "T1") (Fetch.Responds Sample.serverError)
       ApiKeyList.initial).1 =
  ApiKeyList.ErrorText "Unexpected token < in JSON" ∧
  ApiKeyList.apiKeys
    (ApiKeyList.fetchApiKeys (Some "T1") (Fetch.Responds Sample.oneKey)
       ApiKeyList.initial).1 = [Sample.listed].
Proof.
  split.
  - pose proof (key_list_fetch (Some "T1") (Fetch.Responds Sample.serverError)
                  ApiKeyList.initial) as H.
    cbn zeta in H. destruct H as (_ & _ & H).
    change (truthy (Some "T1")) with true in H. cbn beta iota in H.
    destruct H as (rest & _ &
                   [(response & value & Heq & Hok & _)|(_ & message & _ & Hm & _ & H & _)]).
    + injection Heq as <-. discriminate Hok.
    + injection Hm as <-. apply H. discriminate.
  - pose proof (key_list_fetch (Some "T1") (Fetch.Responds Sample.oneKey)
                  ApiKeyList.initial) as H.
    cbn zeta in H. destruct H as (_ & _ & H).
    change (truthy (Some "T1")) with true in H. cbn beta iota in H.
    destruct H as (rest & _ & [(response & value & Heq & _ & Hjson & Hkeys & _)|(Hno & _)]).
    + injection Heq as <-. injection Hjson as <-. exact Hkeys.
    + by destruct (Hno Sample.oneKey (Fetch.mkJson None [Sample.listed]) eq_refl eq_refl).
Defined.

Lemma revoke_key_witness :
  ∃ description,
    description ≠ "" ∧
    ApiKeyList.handleRevoke "om-3f" (Some "T1") true (Fetch.Responds Sample.serverError) =
    [ApiKeyList.Delete "om-3f" (bearer (Some "T1"));
     ApiKeyList.Toast "Error revoking API key" description true].
Proof.
  destruct (revoke_key "om-3f" (Some "T1") true (Fetch.Responds Sample.serverError))
    as (_ & _ & _ & H).
  apply (H eq_refl eq_refl Sample.serverError eq_refl eq_refl).
Defined.

Lemma generate_key_submit_witness :
  Fetch.json (Fetch.mkResponse 200 "OK" (Fetch.JsonThrows "Unexpected end of JSON input")) =
  @Fetch.JsonThrows GenerateApiKeyDialog.NewApiKeyInfo "Unexpected end of JSON input".
Proof.
  pose proof (generate_key_submit (λ s, s) (Some "T1")
                (Fetch.Responds
                   (Fetch.mkResponse 200 "OK" (Fetch.JsonThrows "Unexpected end of JSON input")))
                Sample.typed) as H.
  cbn zeta in H. destruct H as (_ & _ & H).
  change (truthy (Some "T1")) with true in H. cbn beta iota in H.
  destruct H as (_ & rest & _ &
                 [(response & value & Heq & _ & Hjson & _)|(message & _ & Hm & _ & _ & H)]).
  - injection Heq as <-. discriminate Hjson.
  - injection Hm as <-. apply (H _ eq_refl eq_refl).
Defined.


